(** * go-chat-simple: the message board of [server/server.go]

    A shallow embedding of the board actor ([Board], [HandleBoard]) and of
    the per-connection protocol ([Serve]), with the properties of the
    design document stated over it.

    Modelling choices.
    - A Go [string] is a sequence of bytes: Rocq's [string].
    - [MsgType] is an [int]: a [Z]; the three named constants are 0, 1, 2
      and every other value is a legal [MsgType] too.
    - A channel value is either [nil] or the identity of a channel made by
      [make]: [option chan], with [chan := nat].
    - [b.clients] is a Go map from names to channel values: a [gmap].
      [range] visits every entry once, in an order the language leaves
      open: the order is an argument of the loop, and the step relation
      quantifies over every permutation of the entries.
    - The effects of one turn of the event loop are a trace: the lines
      written by [fmt.Printf] and the sends [ch <- m] that completed.
    - [wakeupCh] and the channels of the members are unbuffered. A send on
      a [nil] channel blocks for ever, a send on a closed channel panics, a
      send on a channel nobody receives from blocks, and a send on a
      channel whose owner is receiving completes. What each channel is up
      to at the time of a turn is an argument of the turn. *)

From stdpp Require Import base gmap sets list strings.
From Stdlib Require Import ZArith NArith Ascii String.

Local Open Scope Z_scope.
Local Open Scope string_scope.
Local Open Scope list_scope.

(** ** Data model *)

Definition MsgType := Z.

Definition LOGIN : MsgType := 0.
Definition LOGOUT : MsgType := 1.
Definition TEXTLINE : MsgType := 2.

(** The identity of a channel created by [make(chan *Notification)]. *)
Definition chan := nat.

(** [type Notification struct]; the field [Type] is spelled [Type_]. *)
Record Notification := {
  Type_ : MsgType;
  Msg : string;
  Name : string;
  ReplyCh : option chan
}.

Global Instance Notification_eq_dec : EqDecision Notification.
Proof. solve_decision. Defined.

(** [type Board struct]. The field [wakeupCh] is the queue of events: the
    events are handed to the step function one at a time. The field
    [Name] of the board is spelled [BoardName]. *)
Record Board := {
  BoardName : string;
  clients : gmap string (option chan)
}.

Definition NewBoard (name : string) : Board :=
  {| BoardName := name; clients := ∅ |}.

Definition set_clients (b : Board) (c : gmap string (option chan)) : Board :=
  {| BoardName := BoardName b; clients := c |}.

(** ** Effects of the event loop *)

Inductive Effect :=
| Printf (out : string)
| Send (to : string) (ch : chan) (m : Notification).

Inductive Status :=
| Running
| Panicked
| Blocked.

Global Instance Status_eq_dec : EqDecision Status.
Proof. solve_decision. Defined.

(** What a channel made by a handler is up to: its owner is receiving
    from it, or nobody is (the loop of lines 159-174 has returned), or it
    has been env (line 146). *)
Inductive ChanState :=
| Receiving
| Stalled
| Closed.

Definition listening : chan → ChanState := λ _, Receiving.

Definition LF : string := String (Ascii.ascii_of_nat 10) EmptyString.

(** The sends of a trace: the member served, its channel, the message. *)
Fixpoint sends (t : list Effect) : list (string * chan * Notification) :=
  match t with
  | [] => []
  | Printf _ :: t' => sends t'
  | Send to ch m :: t' => (to, ch, m) :: sends t'
  end.

(** ** The board actor *)

(** The loop [for name, ch := range b.clients] of the [TEXTLINE] case,
    over the entries in the order [range] yields them. [env] tells what
    each channel is up to. *)
Fixpoint forward (env : chan → ChanState) (m : Notification)
    (entries : list (string * option chan)) : list Effect * Status :=
  match entries with
  | [] => ([], Running)
  | (name, ch) :: rest =>
      if decide (name = Name m) then forward env m rest
      else
        let line := Printf ("  fwd to [" +:+ name +:+ "]" +:+ LF) in
        match ch with
        | None => ([line], Blocked)
        | Some c =>
            match env c with
            | Closed => ([line], Panicked)
            | Stalled => ([line], Blocked)
            | Receiving =>
                let '(t, st) := forward env m rest in
                (line :: Send name c m :: t, st)
            end
        end
  end.

(** One turn of [HandleBoard]: the event [m] received from [wakeupCh] is
    dispatched on its [Type]; the [switch] has no [default]. *)
Definition HandleBoard_event (env : chan → ChanState)
    (order : list (string * option chan)) (b : Board) (m : Notification)
    : Board * list Effect * Status :=
  if Z.eqb (Type_ m) LOGIN then
    (set_clients b (<[Name m := ReplyCh m]> (clients b)),
     [Printf ("login from [" +:+ Name m +:+ "]" +:+ LF)], Running)
  else if Z.eqb (Type_ m) LOGOUT then
    (set_clients b (delete (Name m) (clients b)),
     [Printf ("logout from [" +:+ Name m +:+ "]" +:+ LF)], Running)
  else if Z.eqb (Type_ m) TEXTLINE then
    let '(t, st) := forward env m order in
    (b, Printf ("msg from [" +:+ Name m +:+ "]" +:+ LF) :: t, st)
  else (b, [], Running).

(** The turn with the order of [range] left open. *)
Definition HandleBoard_step (env : chan → ChanState) (b : Board) (m : Notification)
    (r : Board * list Effect * Status) : Prop :=
  ∃ order, order ≡ₚ map_to_list (clients b) ∧ r = HandleBoard_event env order b m.

(** The turn with the entries in the order [map_to_list] lists them. *)
Definition HandleBoard_turn (env : chan → ChanState) (b : Board) (m : Notification)
    : Board * list Effect * Status :=
  HandleBoard_event env (map_to_list (clients b)) b m.

(** The membership after a turn; it does not depend on the order. *)
Definition next_clients (cl : gmap string (option chan)) (m : Notification)
    : gmap string (option chan) :=
  if Z.eqb (Type_ m) LOGIN then <[Name m := ReplyCh m]> cl
  else if Z.eqb (Type_ m) LOGOUT then delete (Name m) cl
  else cl.

(** The three submissions of the public interface: the notification that
    [Login], [Logout] and [Publish] send on [wakeupCh]. *)
Definition Login (name : string) (replyCh : option chan) : Notification :=
  {| Type_ := LOGIN; Msg := ""; Name := name; ReplyCh := replyCh |}.

Definition Logout (name : string) : Notification :=
  {| Type_ := LOGOUT; Msg := ""; Name := name; ReplyCh := None |}.

Definition Publish (name msg : string) : Notification :=
  {| Type_ := TEXTLINE; Msg := msg; Name := name; ReplyCh := None |}.

(** Every member but [sender] has a channel, and is receiving from it. *)
Definition receivers_ready (env : chan → ChanState) (cl : gmap string (option chan))
    (sender : string) : Prop :=
  ∀ name ch, cl !! name = Some ch → name ≠ sender → ∃ c, ch = Some c ∧ env c = Receiving.

(** The deliveries a publish from [sender] owes: one per member whose name
    is not [sender]. *)
Definition others (cl : gmap string (option chan)) (sender : string)
    : gmap string (option chan) :=
  filter (λ e, e.1 ≠ sender) cl.

(** What a member is owed when [m] is published: nothing can be handed to a
    [nil] channel. *)
Definition delivery (m : Notification) (e : string * option chan)
    : option (string * chan * Notification) :=
  match e.2 with
  | Some c => Some (e.1, c, m)
  | None => None
  end.


(** ** Sample rooms *)

Definition bob_ch : chan := 1%nat.
Definition alice_ch : chan := 2%nat.
Definition carol_ch : chan := 3%nat.

Definition room : Board :=
  {| BoardName := "1";
     clients := {[ "bob" := Some bob_ch; "alice" := Some alice_ch ]} |}.

Definition room_of_alice : Board :=
  {| BoardName := "1"; clients := {[ "alice" := Some alice_ch ]} |}.

(** ** The event loop over a sequence of events *)

(** [HandleBoard] takes the events off [wakeupCh] one turn after the other.
    It never exits: what is modelled is the loop over the events received
    so far. Between two turns the owners of channels may stop receiving
    and close them, so every turn has its own [env]. A turn that panics or
    blocks is the last one. *)
Inductive HandleBoard : Board → list Notification → Board → list Effect → Status → Prop :=
| HandleBoard_idle b :
    HandleBoard b [] b [] Running
| HandleBoard_next env b m ms b1 t1 b2 t2 st :
    HandleBoard_step env b m (b1, t1, Running) →
    HandleBoard b1 ms b2 t2 st →
    HandleBoard b (m :: ms) b2 (t1 ++ t2) st
| HandleBoard_halt env b m ms b1 t1 st :
    HandleBoard_step env b m (b1, t1, st) →
    st ≠ Running →
    HandleBoard b (m :: ms) b1 t1 st.

(** The membership after a sequence of events, applied one after the other. *)
Definition clients_after (cl : gmap string (option chan)) (ms : list Notification)
    : gmap string (option chan) :=
  foldl next_clients cl ms.

(** No name is bound to the channel [c]. *)
Definition unbound (c : chan) (cl : gmap string (option chan)) : Prop :=
  ∀ name, cl !! name ≠ Some (Some c).

(** [room] after a second Login of bob, on another channel. *)
Definition room_bob_again : Board :=
  {| BoardName := "1";
     clients := <["bob" := Some carol_ch]> (clients room) |}.

(** ** The connection handler *)

(** *** Reading lines *)

Definition newline : ascii := Ascii.ascii_of_nat 10.

(** [bufio.Reader.ReadString(delim)] over the bytes the connection still
    has to yield before it ends: the bytes up to and including the first
    [delim], and what is left; [None] stands for [err != nil], which is
    what [ReadString] returns when the stream ends or fails before a
    [delim] (the bytes read so far are then dropped by [Serve]). *)
Fixpoint ReadString (delim : ascii) (s : string) : option (string * string) :=
  match s with
  | EmptyString => None
  | String c s' =>
      if Ascii.eqb c delim then Some (String c EmptyString, s')
      else
        match ReadString delim s' with
        | Some (line, rest) => Some (String c line, rest)
        | None => None
        end
  end.

(** A line as [ReadString('\n')] returns it: one newline, at the end. *)
Definition is_line (l : string) : Prop := ReadString newline l = Some (l, "").

(** *** [strings.TrimSpace]

    [TrimSpace] is Go's library function: it removes the leading and the
    trailing runes for which [unicode.IsSpace] holds. It is modelled on the
    UTF-8 bytes of the string: the white space runes are the six ASCII ones
    and U+0085, U+00A0, U+1680, U+2000 to U+200A, U+2028, U+2029, U+202F,
    U+205F, U+3000, each recognised by its encoding. *)

Definition byte_of (c : ascii) : N := Ascii.N_of_ascii c.

(** '\t', '\n', '\v', '\f', '\r', ' ' *)
Definition asciiSpace (c : ascii) : bool :=
  ((9 <=? byte_of c) && (byte_of c <=? 13) || (byte_of c =? 32))%N.

(** U+0085 is C2 85, U+00A0 is C2 A0. *)
Definition space2 (c1 c2 : ascii) : bool :=
  ((byte_of c1 =? 0xC2) && ((byte_of c2 =? 0x85) || (byte_of c2 =? 0xA0)))%N.

(** U+1680 is E1 9A 80; U+2000..U+200A are E2 80 80..8A; U+2028, U+2029
    and U+202F are E2 80 A8, A9 and AF; U+205F is E2 81 9F; U+3000 is
    E3 80 80. *)
Definition space3 (c1 c2 c3 : ascii) : bool :=
  ((byte_of c1 =? 0xE1) && (byte_of c2 =? 0x9A) && (byte_of c3 =? 0x80)
   || (byte_of c1 =? 0xE2) && (byte_of c2 =? 0x80)
      && ((0x80 <=? byte_of c3) && (byte_of c3 <=? 0x8A)
          || (byte_of c3 =? 0xA8) || (byte_of c3 =? 0xA9) || (byte_of c3 =? 0xAF))
   || (byte_of c1 =? 0xE2) && (byte_of c2 =? 0x81) && (byte_of c3 =? 0x9F)
   || (byte_of c1 =? 0xE3) && (byte_of c2 =? 0x80) && (byte_of c3 =? 0x80))%N.

(** The number of bytes of the white space rune the bytes start with;
    zero when they start with none. *)
Definition space_width (bs : list ascii) : nat :=
  match bs with
  | c1 :: r1 =>
      if asciiSpace c1 then 1%nat
      else match r1 with
           | c2 :: r2 =>
               if space2 c1 c2 then 2%nat
               else match r2 with
                    | c3 :: _ => if space3 c1 c2 c3 then 3%nat else 0%nat
                    | [] => 0%nat
                    end
           | [] => 0%nat
           end
  | [] => 0%nat
  end.

(** The same for the rune the bytes end with, on the bytes in reverse. *)
Definition space_width_back (rs : list ascii) : nat :=
  match rs with
  | c1 :: r1 =>
      if asciiSpace c1 then 1%nat
      else match r1 with
           | c2 :: r2 =>
               if space2 c2 c1 then 2%nat
               else match r2 with
                    | c3 :: _ => if space3 c3 c2 c1 then 3%nat else 0%nat
                    | [] => 0%nat
                    end
           | [] => 0%nat
           end
  | [] => 0%nat
  end.

(** Removing the leading white space runes. *)
Fixpoint trim_front (bs : list ascii) : list ascii :=
  match bs with
  | c1 :: r1 =>
      if asciiSpace c1 then trim_front r1
      else match r1 with
           | c2 :: r2 =>
               if space2 c1 c2 then trim_front r2
               else match r2 with
                    | c3 :: r3 => if space3 c1 c2 c3 then trim_front r3 else bs
                    | [] => bs
                    end
           | [] => bs
           end
  | [] => []
  end.

(** Removing the trailing white space runes, on the bytes in reverse. *)
Fixpoint trim_back_rev (rs : list ascii) : list ascii :=
  match rs with
  | c1 :: r1 =>
      if asciiSpace c1 then trim_back_rev r1
      else match r1 with
           | c2 :: r2 =>
               if space2 c2 c1 then trim_back_rev r2
               else match r2 with
                    | c3 :: r3 => if space3 c3 c2 c1 then trim_back_rev r3 else rs
                    | [] => rs
                    end
           | [] => rs
           end
  | [] => []
  end.

Definition trim_back (bs : list ascii) : list ascii :=
  rev (trim_back_rev (rev bs)).

Definition TrimSpace (s : string) : string :=
  string_of_list_ascii (trim_back (trim_front (list_ascii_of_string s))).

(** A sequence of white space runes. *)
Inductive spaces : list ascii → Prop :=
| spaces_nil : spaces []
| spaces_ascii c r : asciiSpace c = true → spaces r → spaces (c :: r)
| spaces_two c1 c2 r : space2 c1 c2 = true → spaces r → spaces (c1 :: c2 :: r)
| spaces_three c1 c2 c3 r :
    space3 c1 c2 c3 = true → spaces r → spaces (c1 :: c2 :: c3 :: r).

(** *** [Serve] *)

(** The goroutine of lines 145-155: every line read is published under
    [name]; when the read fails, the handler logs out (and closes its
    channel). [fuel] bounds the number of reads. *)
Fixpoint reader (fuel : nat) (name : string) (input : string) : list Notification :=
  match fuel with
  | O => []
  | S fuel' =>
      match ReadString newline input with
      | None => [Logout name]
      | Some (line, rest) => Publish name line :: reader fuel' name rest
      end
  end.

(** What [Serve] submits to the board, in order, for a connection that
    yields the bytes [input] and then ends. [prompt_ok] tells whether the
    prompt could be written and flushed; [reply] is the channel made for
    this connection. There is one read more than there are lines. *)
Definition Serve_submits (prompt_ok : bool) (reply : chan) (input : string)
    : list Notification :=
  if prompt_ok then
    match ReadString newline input with
    | None => []
    | Some (line, rest) =>
        let name := TrimSpace line in
        Login name (Some reply) :: reader (S (String.length rest)) name rest
    end
  else [].

(** [fmt.Sprintf("%s: %s", r.Name, r.Msg)] *)
Definition relay_line (r : Notification) : string :=
  Name r +:+ ": " +:+ Msg r.

(** The loop of lines 159-174 over the notifications received on [reply],
    each with the outcome of writing and flushing it: the strings written
    to the connection. The loop ends at the first write that fails, and
    when [reply] is closed. *)
Fixpoint relay (received : list (Notification * bool)) : list string :=
  match received with
  | [] => []
  | (r, ok) :: rest => if ok then relay_line r :: relay rest else []
  end.

(** All the bytes [Serve] writes to the connection when no write fails. *)
Definition Serve_writes (received : list Notification) : string :=
  "username> " +:+ String.concat "" (relay (map (λ r, (r, true)) received)).

(** The bytes of the lines [lines], followed by [tail]. *)
Definition join (lines : list string) (tail : string) : string :=
  foldr String.append tail lines.

(** ** The handlers and the board together *)

(** [wakeupCh] is unbuffered: a handler that submits an event waits until
    the event loop receives it, and the loop receives one event per turn.
    A state of the whole is: for each handler the events it has still to
    submit, in its own order; the board; whether the loop is still
    running; and the events the loop has received so far, in the order it
    received them. *)
Record System := {
  pending : list (list Notification);
  actor : Board;
  status : Status;
  consumed : list Notification
}.

Definition System_init (handlers : list (list Notification)) : System :=
  {| pending := handlers; actor := NewBoard "1"; status := Running; consumed := [] |}.

(** One rendezvous on [wakeupCh]: the loop, if it is running, receives the
    event some handler is waiting to submit and takes its turn on it. The
    choice of the handler, the order of [range] and what the channels are
    up to by then are left open. *)
Inductive System_step : System → System → Prop :=
| System_rendezvous s i m rest env r :
    pending s !! i = Some (m :: rest) →
    status s = Running →
    HandleBoard_step env (actor s) m r →
    System_step s {| pending := <[i := rest]> (pending s);
                     actor := r.1.1;
                     status := r.2;
                     consumed := consumed s ++ [m] |}.

(** The rendezvous with handler [i], with [range] in the order of
    [map_to_list]; nothing happens when handler [i] has nothing to submit
    or the loop has stopped. *)
Definition System_take (env : chan → ChanState) (i : nat) (s : System) : System :=
  match status s, pending s !! i with
  | Running, Some (m :: rest) =>
      let r := HandleBoard_turn env (actor s) m in
      {| pending := <[i := rest]> (pending s);
         actor := r.1.1;
         status := r.2;
         consumed := consumed s ++ [m] |}
  | _, _ => s
  end.

(** [l] is an interleaving of the sequences [qs]: it takes every element of
    every sequence once, and those of one sequence in their order. *)
Inductive Interleaving {A : Type} : list (list A) → list A → Prop :=
| Interleaving_done qs :
    Forall (λ q, q = []) qs → Interleaving qs []
| Interleaving_take qs i x q l :
    qs !! i = Some (x :: q) →
    Interleaving (<[i := q]> qs) l →
    Interleaving qs (x :: l).

(** Two handlers: bob logs in and leaves, alice logs in and says hello. *)
Definition two_handlers : list (list Notification) :=
  [ [Login "bob" (Some bob_ch); Logout "bob"];
    [Login "alice" (Some alice_ch); Publish "alice" ("Hello, everyone!" +:+ LF)] ].

Definition two_handlers_end : System :=
  System_take listening 0 (System_take listening 1 (System_take listening 1 (System_take listening 0
    (System_init two_handlers)))).

(** ** Histories *)

(** No event of [ms] logs the name [n] in or out. *)
Definition quiet (n : string) (ms : list Notification) : Prop :=
  Forall (λ e, Name e = n → Type_ e ≠ LOGIN ∧ Type_ e ≠ LOGOUT) ms.

(** No two handlers submit events under the same name. *)
Definition own_names (qs : list (list Notification)) : Prop :=
  ∀ i j q1 q2 m1 m2,
    qs !! i = Some q1 → qs !! j = Some q2 → m1 ∈ q1 → m2 ∈ q2 →
    Name m1 = Name m2 → i = j.

(** The two handlers again, alice served before bob. *)
Definition two_handlers_alice_first : System :=
  System_take listening 0 (System_take listening 0 (System_take listening 1
    (System_take listening 1 (System_init two_handlers)))).

(** ** Connections and their channels *)

(** What [Serve] submits for a connection that named itself [name], was
    given the channel [reply] and then sent the lines [lines]. *)
Definition session (name : string) (reply : chan) (lines : list string)
    : list Notification :=
  Login name (Some reply) :: map (Publish name) lines ++ [Logout name].

(** A connection past line 136: its name, the channel made for it, what
    its reading goroutine has still to submit, and whether the deferred
    [close(reply)] of line 146 has run. *)
Record Handler := {
  h_name : string;
  h_reply : chan;
  h_todo : list Notification;
  h_closed : bool
}.

Definition h_submitted (h : Handler) (rest : list Notification) : Handler :=
  {| h_name := h_name h; h_reply := h_reply h; h_todo := rest;
     h_closed := h_closed h |}.

Definition h_close (h : Handler) : Handler :=
  {| h_name := h_name h; h_reply := h_reply h; h_todo := h_todo h;
     h_closed := true |}.

Record Room := {
  conns : list Handler;
  room_board : Board;
  room_status : Status
}.

Definition Room_init (hs : list Handler) : Room :=
  {| conns := hs; room_board := NewBoard "1"; room_status := Running |}.

(** The channel [c] has been closed by the connection it was made for. *)
Definition closed_in (hs : list Handler) (c : chan) : Prop :=
  ∃ j h, hs !! j = Some h ∧ h_reply h = c ∧ h_closed h = true.

(** A connection submits its next event and the event loop takes its turn
    on it: only channels that were closed by their connection are closed,
    any other channel may or may not have a receiver. Or a connection
    that has submitted everything, its Logout last, closes its channel. *)
Inductive Room_step : Room → Room → Prop :=
| Room_submit r i h m rest env res :
    conns r !! i = Some h →
    h_todo h = m :: rest →
    room_status r = Running →
    (∀ c, env c = Closed → closed_in (conns r) c) →
    HandleBoard_step env (room_board r) m res →
    Room_step r {| conns := <[i := h_submitted h rest]> (conns r);
                   room_board := res.1.1;
                   room_status := res.2 |}
| Room_close r i h :
    conns r !! i = Some h →
    h_todo h = [] →
    Room_step r {| conns := <[i := h_close h]> (conns r);
                   room_board := room_board r;
                   room_status := room_status r |}.

(** The stages of a connection: before its Login, between its Login and
    its Logout, after its Logout. *)
Definition fresh (h : Handler) : Prop :=
  h_closed h = false ∧ ∃ lines, h_todo h = session (h_name h) (h_reply h) lines.

Definition joined (h : Handler) : Prop :=
  h_closed h = false
  ∧ ∃ lines, h_todo h = map (Publish (h_name h)) lines ++ [Logout (h_name h)].

Definition gone (h : Handler) : Prop := h_todo h = [].

(** Connections as [Serve] starts them: each with a channel of its own,
    and its whole session to submit. Two of them may have the same name. *)
Definition fresh_conns (hs : list Handler) : Prop :=
  NoDup (h_reply <$> hs) ∧ Forall fresh hs.

(** The same steps as functions, every channel having a receiver. *)
Definition Room_take (i : nat) (r : Room) : Room :=
  match room_status r, conns r !! i with
  | Running, Some h =>
      match h_todo h with
      | m :: rest =>
          let res := HandleBoard_turn listening (room_board r) m in
          {| conns := <[i := h_submitted h rest]> (conns r);
             room_board := res.1.1;
             room_status := res.2 |}
      | [] => r
      end
  | _, _ => r
  end.

Definition Room_shut (i : nat) (r : Room) : Room :=
  match conns r !! i with
  | Some h =>
      match h_todo h with
      | [] => {| conns := <[i := h_close h]> (conns r);
                 room_board := room_board r;
                 room_status := room_status r |}
      | _ => r
      end
  | None => r
  end.

(** Two connections under the same name: the first logs in, then the
    second; the first leaves and closes its channel; the second goes on. *)
Definition two_bobs : list Handler :=
  [ {| h_name := "bob"; h_reply := bob_ch;
       h_todo := session "bob" bob_ch []; h_closed := false |};
    {| h_name := "bob"; h_reply := carol_ch;
       h_todo := session "bob" carol_ch ["hi" +:+ LF]; h_closed := false |} ].

Definition two_bobs_later : Room :=
  Room_take 1 (Room_shut 0 (Room_take 0 (Room_take 1 (Room_take 0
    (Room_init two_bobs))))).

(** What the connections and the board keep between them: every channel
    belongs to one connection; every connection is at one of its stages;
    a name is bound only to the channel of a connection of that name that
    is between its Login and its Logout; the loop has not panicked. *)
Definition Room_inv (r : Room) : Prop :=
  (∀ j k hj hk, conns r !! j = Some hj → conns r !! k = Some hk →
     h_reply hj = h_reply hk → j = k)
  ∧ (∀ j h, conns r !! j = Some h → fresh h ∨ joined h ∨ gone h)
  ∧ (∀ n ch, clients (room_board r) !! n = Some ch →
       ∃ j h, conns r !! j = Some h ∧ ch = Some (h_reply h)
         ∧ n = h_name h ∧ joined h)
  ∧ room_status r ≠ Panicked.
(** * Properties
    The board actor first, then the connection handler. *)

(** A turn on a given board, with [range] in the order of [map_to_list]. *)
Ltac by_turn :=
  eexists; split; [reflexivity | vm_compute; reflexivity].

Example turn_alice_bob :
  HandleBoard_turn listening room (Publish "alice" "hi")
  = (room,
     [Printf ("msg from [alice]" +:+ LF); Printf ("  fwd to [bob]" +:+ LF);
      Send "bob" bob_ch (Publish "alice" "hi")], Running).
Proof. vm_compute. reflexivity. Qed.

(** A member whose channel has been closed makes the turn panic, one nobody
    receives from makes it block; in both cases nothing is sent to it. *)
Example turn_on_closed_channel :
  HandleBoard_turn (λ c, if decide (c = alice_ch) then Closed else Receiving)
    room_of_alice (Publish "bob" "hi")
  = (room_of_alice,
     [Printf ("msg from [bob]" +:+ LF); Printf ("  fwd to [alice]" +:+ LF)], Panicked).
Proof. vm_compute. reflexivity. Qed.

Example turn_on_stalled_channel :
  HandleBoard_turn (λ c, if decide (c = alice_ch) then Stalled else Receiving)
    room_of_alice (Publish "bob" "hi")
  = (room_of_alice,
     [Printf ("msg from [bob]" +:+ LF); Printf ("  fwd to [alice]" +:+ LF)], Blocked).
Proof. vm_compute. reflexivity. Qed.

(** ** The loop over the members *)

Section Forward.
Variable env : chan → ChanState.
Variable m : Notification.

Lemma forward_sends_sound entries to c m' :
  (to, c, m') ∈ sends (forward env m entries).1 →
  to ≠ Name m ∧ m' = m ∧ (to, Some c) ∈ entries.
Proof.
  induction entries as [|[name ch] rest IH]; simpl.
  - intros H. inversion H.
  - destruct (decide (name = Name m)) as [->|Hne].
    + intros H. destruct (IH H) as (? & ? & ?). repeat split; auto.
      by apply list_elem_of_further.
    + destruct ch as [c0|]; simpl; [|intros H; inversion H].
      destruct (env c0); simpl; try (intros H; inversion H; fail).
      destruct (forward env m rest) as [t st] eqn:E. simpl in *.
      rewrite elem_of_cons. intros [Heq|Hin].
      * inversion Heq; subst. repeat split; auto. apply list_elem_of_here.
      * destruct (IH Hin) as (? & ? & ?). repeat split; auto.
        by apply list_elem_of_further.
Qed.

Lemma forward_ready entries :
  (∀ name ch, (name, ch) ∈ entries → name ≠ Name m →
     ∃ c, ch = Some c ∧ env c = Receiving) →
  (forward env m entries).2 = Running ∧
  sends (forward env m entries).1
    = omap (delivery m) (filter (λ e, e.1 ≠ Name m) entries).
Proof.
  induction entries as [|[name ch] rest IH]; intros Hr; simpl; [done|].
  assert (Hrest : ∀ name ch, (name, ch) ∈ rest → name ≠ Name m →
                   ∃ c, ch = Some c ∧ env c = Receiving).
  { intros n c Hin. apply Hr. by apply list_elem_of_further. }
  destruct (IH Hrest) as [Hst Hs].
  destruct (decide (name = Name m)) as [->|Hne].
  - rewrite filter_cons_False; [done | simpl; tauto].
  - rewrite filter_cons_True by done.
    destruct (Hr name ch (list_elem_of_here _ _) Hne) as (c & -> & Hopen).
    rewrite Hopen.
    destruct (forward env m rest) as [t st] eqn:E. simpl in *.
    split; [done|]. unfold delivery at 1. simpl. by rewrite Hs.
Qed.

Lemma forward_nobody entries :
  (∀ name ch, (name, ch) ∈ entries → name = Name m) →
  forward env m entries = ([], Running).
Proof.
  induction entries as [|[name ch] rest IH]; intros Hall; simpl; [done|].
  rewrite decide_True by (eapply Hall, list_elem_of_here).
  apply IH. intros n c Hin. eapply Hall. by apply list_elem_of_further.
Qed.
End Forward.

Lemma map_to_list_others (cl : gmap string (option chan)) sender :
  filter (λ e, e.1 ≠ sender) (map_to_list cl) ≡ₚ map_to_list (others cl sender).
Proof.
  apply NoDup_Permutation.
  - apply NoDup_filter, NoDup_map_to_list.
  - apply NoDup_map_to_list.
  - intros [name ch]. rewrite list_elem_of_filter, !elem_of_map_to_list.
    unfold others. rewrite map_lookup_filter_Some. simpl. tauto.
Qed.

(** A turn of the event loop can always be taken. *)
Lemma HandleBoard_step_turn env b m :
  HandleBoard_step env b m (HandleBoard_turn env b m).
Proof. by exists (map_to_list (clients b)). Qed.

(** The membership after a turn is [next_clients], whatever the order. *)
Lemma HandleBoard_step_clients env b m b' t st :
  HandleBoard_step env b m (b', t, st) →
  b' = set_clients b (next_clients (clients b) m).
Proof.
  intros (order & _ & Heq). unfold HandleBoard_event, next_clients in *.
  destruct (Z.eqb (Type_ m) LOGIN); [congruence|].
  destruct (Z.eqb (Type_ m) LOGOUT); [congruence|].
  destruct b as [n cl]; unfold set_clients; simpl in *.
  destruct (Z.eqb (Type_ m) TEXTLINE); [|congruence].
  destruct (forward env m order). congruence.
Qed.

Lemma set_clients_same b : set_clients b (clients b) = b.
Proof. by destruct b. Qed.

(** The turn of a [TEXTLINE] event, unfolded. *)
Lemma HandleBoard_step_publish env b m b' t st :
  Type_ m = TEXTLINE →
  HandleBoard_step env b m (b', t, st) →
  ∃ order, order ≡ₚ map_to_list (clients b) ∧ b' = b ∧
    sends t = sends (forward env m order).1 ∧
    st = (forward env m order).2.
Proof.
  intros Hty (order & Hperm & Heq). exists order. split; [done|].
  unfold HandleBoard_event in Heq. rewrite Hty in Heq. simpl in Heq.
  destruct (forward env m order) as [t0 st0]. by inversion Heq.
Qed.

(** The sends of the turn of a [TEXTLINE] event: only to members of another
    name, and to each of them when they are all receiving. *)
Lemma publish_step_sends env b m b' t st :
  Type_ m = TEXTLINE →
  HandleBoard_step env b m (b', t, st) →
  (∀ to c m', (to, c, m') ∈ sends t →
     to ≠ Name m ∧ m' = m ∧ clients b !! to = Some (Some c))
  ∧ (receivers_ready env (clients b) (Name m) →
     ∀ to c, clients b !! to = Some (Some c) → to ≠ Name m → (to, c, m) ∈ sends t).
Proof.
  intros Hty Hstep.
  destruct (HandleBoard_step_publish _ _ _ _ _ _ Hty Hstep)
    as (order & Hperm & -> & Hs & Hst).
  split.
  - intros to c m' Hin. rewrite Hs in Hin.
    apply forward_sends_sound in Hin as (? & ? & Hin). repeat split; auto.
    rewrite Hperm in Hin. by apply elem_of_map_to_list in Hin.
  - intros Hready to c Hto Hne.
    destruct (forward_ready env m order) as [_ Hsends].
    { intros name ch Hin. rewrite Hperm in Hin.
      apply elem_of_map_to_list in Hin. by apply Hready. }
    rewrite Hs, Hsends. apply list_elem_of_omap.
    exists (to, Some c). split; [|done].
    apply list_elem_of_filter. split; [done|].
    rewrite Hperm. by apply elem_of_map_to_list.
Qed.

(** ** Publish *)

(** C1. A processed Publish hands the message to the registered members
    whose name is not the sender's, and to nobody else: every send of the
    turn goes to such a member, on the channel it registered; when these
    members are receiving, the turn completes and the sends are exactly
    one per such member; when the sender is the only member, nothing is
    sent. *)
Theorem publish_reaches_exactly_the_others env b m b' t st :
  Type_ m = TEXTLINE →
  HandleBoard_step env b m (b', t, st) →
  (∀ to c m', (to, c, m') ∈ sends t →
     to ≠ Name m ∧ m' = m ∧ clients b !! to = Some (Some c))
  ∧ (receivers_ready env (clients b) (Name m) →
     st = Running ∧
     sends t ≡ₚ omap (delivery m) (map_to_list (others (clients b) (Name m))) ∧
     ∀ to c, clients b !! to = Some (Some c) → to ≠ Name m → (to, c, m) ∈ sends t)
  ∧ (dom (clients b) ⊆ {[Name m]} → st = Running ∧ sends t = []).
Proof.
  intros Hty Hstep.
  destruct (HandleBoard_step_publish _ _ _ _ _ _ Hty Hstep)
    as (order & Hperm & -> & Hs & Hst).
  split; [|split].
  - intros to c m' Hin. rewrite Hs in Hin.
    apply forward_sends_sound in Hin as (? & ? & Hin). repeat split; auto.
    rewrite Hperm in Hin. by apply elem_of_map_to_list in Hin.
  - intros Hready.
    destruct (forward_ready env m order) as [Hrun Hsends].
    { intros name ch Hin. rewrite Hperm in Hin.
      apply elem_of_map_to_list in Hin. by apply Hready. }
    assert (Hp : sends t ≡ₚ
              omap (delivery m) (map_to_list (others (clients b) (Name m)))).
    { rewrite Hs, Hsends, Hperm. by rewrite map_to_list_others. }
    split; [congruence|]. split; [done|].
    intros to c Hto Hne. rewrite Hp. apply list_elem_of_omap.
    exists (to, Some c). split; [|done].
    apply elem_of_map_to_list. unfold others.
    by apply map_lookup_filter_Some.
  - intros Hdom. rewrite Hs, Hst, (forward_nobody env m order); [done|].
    intros name ch Hin. rewrite Hperm in Hin.
    apply elem_of_map_to_list in Hin.
    assert (name ∈ dom (clients b)) by (apply elem_of_dom; eauto).
    set_solver.
Qed.

Lemma publish_reaches_exactly_the_others_witness :
  (∀ to c m', (to, c, m') ∈ [("bob", bob_ch, Publish "alice" "hi")] →
     to ≠ "alice" ∧ m' = Publish "alice" "hi" ∧ clients room !! to = Some (Some c))
  ∧ (receivers_ready listening (clients room) "alice" →
     Running = Running ∧
     [("bob", bob_ch, Publish "alice" "hi")]
       ≡ₚ omap (delivery (Publish "alice" "hi"))
            (map_to_list (others (clients room) "alice")) ∧
     ∀ to c, clients room !! to = Some (Some c) → to ≠ "alice" →
       (to, c, Publish "alice" "hi") ∈ [("bob", bob_ch, Publish "alice" "hi")])
  ∧ (dom (clients room) ⊆ {["alice"]} →
     Running = Running ∧ [("bob", bob_ch, Publish "alice" "hi")] = []).
Proof.
  apply (publish_reaches_exactly_the_others listening room (Publish "alice" "hi") room
           [Printf ("msg from [alice]" +:+ LF); Printf ("  fwd to [bob]" +:+ LF);
            Send "bob" bob_ch (Publish "alice" "hi")] Running).
  - reflexivity.
  - by_turn.
Defined.

(** C9. A Publish leaves the membership as it was: the board after the turn
    is the board before it, so every binding is kept and none is added. *)
Theorem publish_keeps_membership env b m b' t st :
  Type_ m = TEXTLINE →
  HandleBoard_step env b m (b', t, st) →
  b' = b ∧ ∀ name, clients b' !! name = clients b !! name.
Proof.
  intros Hty Hstep.
  destruct (HandleBoard_step_publish _ _ _ _ _ _ Hty Hstep)
    as (order & _ & -> & _). done.
Qed.

Lemma publish_keeps_membership_witness :
  room = room ∧ ∀ name, clients room !! name = clients room !! name.
Proof.
  apply (publish_keeps_membership listening room (Publish "alice" "hi") room
           [Printf ("msg from [alice]" +:+ LF); Printf ("  fwd to [bob]" +:+ LF);
            Send "bob" bob_ch (Publish "alice" "hi")] Running).
  - reflexivity.
  - by_turn.
Defined.

Lemma others_stranger (cl : gmap string (option chan)) sender :
  cl !! sender = None → others cl sender = cl.
Proof.
  intros Hnone. apply map_eq. intros name. unfold others.
  destruct (cl !! name) as [ch|] eqn:E.
  - apply map_lookup_filter_Some. split; [done|]. simpl. congruence.
  - apply map_lookup_filter_None. by left.
Qed.

(** C4, as stated, fails: a Publish whose sender is not registered is
    handed to a member. With alice alone in the room, a line published
    under the name bob is sent to alice. *)
Lemma publish_from_stranger_is_delivered :
  ¬ (∀ env b m b' t st,
       Type_ m = TEXTLINE → clients b !! Name m = None →
       HandleBoard_step env b m (b', t, st) → sends t = []).
Proof.
  intros H.
  specialize (H listening room_of_alice (Publish "bob" "hi") room_of_alice
    [Printf ("msg from [bob]" +:+ LF); Printf ("  fwd to [alice]" +:+ LF);
     Send "alice" alice_ch (Publish "bob" "hi")] Running).
  discriminate H.
  - reflexivity.
  - reflexivity.
  - by_turn.
Qed.

(** C4, amended. A Publish whose sender is not registered is delivered like
    any other: the membership is unchanged, every send goes to a registered
    member on its channel, and when the members are receiving the
    turn completes without a panic after one send to every member. *)
Theorem publish_from_stranger_reaches_everyone env b m b' t st :
  Type_ m = TEXTLINE →
  clients b !! Name m = None →
  HandleBoard_step env b m (b', t, st) →
  b' = b
  ∧ (∀ to c m', (to, c, m') ∈ sends t → m' = m ∧ clients b !! to = Some (Some c))
  ∧ (receivers_ready env (clients b) (Name m) →
     st = Running ∧ sends t ≡ₚ omap (delivery m) (map_to_list (clients b))).
Proof.
  intros Hty Hnone Hstep.
  destruct (HandleBoard_step_publish _ _ _ _ _ _ Hty Hstep)
    as (order & Hperm & -> & Hs & Hst).
  split; [done|]. split.
  - intros to c m' Hin. rewrite Hs in Hin.
    apply forward_sends_sound in Hin as (_ & ? & Hin). split; [done|].
    rewrite Hperm in Hin. by apply elem_of_map_to_list in Hin.
  - intros Hready.
    destruct (forward_ready env m order) as [Hrun Hsends].
    { intros name ch Hin. rewrite Hperm in Hin.
      apply elem_of_map_to_list in Hin. by apply Hready. }
    split; [congruence|].
    rewrite Hs, Hsends, Hperm, map_to_list_others.
    by rewrite others_stranger.
Qed.

Lemma publish_from_stranger_reaches_everyone_witness :
  room_of_alice = room_of_alice
  ∧ (∀ to c m', (to, c, m') ∈ [("alice", alice_ch, Publish "bob" "hi")] →
       m' = Publish "bob" "hi" ∧ clients room_of_alice !! to = Some (Some c))
  ∧ (receivers_ready listening (clients room_of_alice) "bob" →
     Running = Running ∧
     [("alice", alice_ch, Publish "bob" "hi")]
       ≡ₚ omap (delivery (Publish "bob" "hi")) (map_to_list (clients room_of_alice))).
Proof.
  apply (publish_from_stranger_reaches_everyone listening room_of_alice
           (Publish "bob" "hi") room_of_alice
           [Printf ("msg from [bob]" +:+ LF); Printf ("  fwd to [alice]" +:+ LF);
            Send "alice" alice_ch (Publish "bob" "hi")] Running).
  - reflexivity.
  - reflexivity.
  - by_turn.
Defined.

(** ** Login and Logout *)

(** The turn of a [LOGIN] or [LOGOUT] event, unfolded. *)
Lemma HandleBoard_step_login env b m b' t st :
  Type_ m = LOGIN →
  HandleBoard_step env b m (b', t, st) →
  b' = set_clients b (<[Name m := ReplyCh m]> (clients b)) ∧ sends t = [] ∧ st = Running.
Proof.
  intros Hty (order & _ & Heq). unfold HandleBoard_event in Heq.
  rewrite Hty in Heq. simpl in Heq. by inversion Heq.
Qed.

Lemma HandleBoard_step_logout env b m b' t st :
  Type_ m = LOGOUT →
  HandleBoard_step env b m (b', t, st) →
  b' = set_clients b (delete (Name m) (clients b)) ∧ sends t = [] ∧ st = Running.
Proof.
  intros Hty (order & _ & Heq). unfold HandleBoard_event in Heq.
  rewrite Hty in Heq. simpl in Heq. by inversion Heq.
Qed.

(** C5. A Logout for a name that is not a member leaves the board as it
    was, sends nothing, and the event loop keeps running. *)
Theorem logout_of_stranger_is_noop env b m b' t st :
  Type_ m = LOGOUT →
  clients b !! Name m = None →
  HandleBoard_step env b m (b', t, st) →
  b' = b ∧ clients b' = clients b ∧ sends t = [] ∧ st = Running.
Proof.
  intros Hty Hnone Hstep.
  destruct (HandleBoard_step_logout _ _ _ _ _ _ Hty Hstep) as (-> & Hs & Hst).
  rewrite delete_id by done. rewrite set_clients_same. done.
Qed.

Lemma logout_of_stranger_is_noop_witness :
  room = room ∧ clients room = clients room
  ∧ sends [Printf ("logout from [carol]" +:+ LF)] = [] ∧ Running = Running.
Proof.
  apply (logout_of_stranger_is_noop listening room (Logout "carol") room
           [Printf ("logout from [carol]" +:+ LF)] Running).
  - reflexivity.
  - reflexivity.
  - by_turn.
Defined.

(** C6. Two Logins for a name, with any channels, then one Logout for it:
    the name is absent from the membership, which is the initial one with
    the name deleted; the three turns complete. *)
Theorem login_twice_logout_once env1 env2 env3 b m1 m2 m3
    b1 t1 st1 b2 t2 st2 b3 t3 st3 :
  Type_ m1 = LOGIN → Type_ m2 = LOGIN → Type_ m3 = LOGOUT →
  Name m2 = Name m1 → Name m3 = Name m1 →
  HandleBoard_step env1 b m1 (b1, t1, st1) →
  HandleBoard_step env2 b1 m2 (b2, t2, st2) →
  HandleBoard_step env3 b2 m3 (b3, t3, st3) →
  clients b3 !! Name m1 = None
  ∧ (Name m1 ∉ dom (clients b3))
  ∧ clients b3 = delete (Name m1) (clients b)
  ∧ st1 = Running ∧ st2 = Running ∧ st3 = Running.
Proof.
  intros Hty1 Hty2 Hty3 Hn2 Hn3 H1 H2 H3.
  apply HandleBoard_step_login in H1 as (-> & _ & ->); [|done].
  apply HandleBoard_step_login in H2 as (-> & _ & ->); [|done].
  apply HandleBoard_step_logout in H3 as (-> & _ & ->); [|done].
  simpl. rewrite Hn2, Hn3.
  rewrite insert_insert_eq, delete_insert_eq.
  rewrite not_elem_of_dom, lookup_delete_eq. done.
Qed.

Lemma login_twice_logout_once_witness :
  clients room_of_alice !! "bob" = None
  ∧ ("bob" ∉ dom (clients room_of_alice))
  ∧ clients room_of_alice = delete "bob" (clients room_of_alice)
  ∧ Running = Running ∧ Running = Running ∧ Running = Running.
Proof.
  apply (login_twice_logout_once listening listening listening room_of_alice
           (Login "bob" (Some bob_ch)) (Login "bob" (Some carol_ch)) (Logout "bob")
           (set_clients room_of_alice (<["bob" := Some bob_ch]> (clients room_of_alice)))
           [Printf ("login from [bob]" +:+ LF)] Running
           (set_clients room_of_alice (<["bob" := Some carol_ch]> (clients room_of_alice)))
           [Printf ("login from [bob]" +:+ LF)] Running
           room_of_alice
           [Printf ("logout from [bob]" +:+ LF)] Running);
    try reflexivity.
  - by_turn.
  - by_turn.
  - by_turn.
Defined.

(** ** Events of no known kind *)

(** C10. An event whose Type is none of LOGIN, LOGOUT and TEXTLINE is
    consumed: the turn can be taken, and every way of taking it leaves the
    board as it was, writes and sends nothing, and keeps the loop running. *)
Theorem unknown_type_is_ignored env b m :
  Type_ m ≠ LOGIN → Type_ m ≠ LOGOUT → Type_ m ≠ TEXTLINE →
  HandleBoard_step env b m (b, [], Running)
  ∧ (∀ b' t st, HandleBoard_step env b m (b', t, st) →
      b' = b ∧ clients b' = clients b ∧ t = [] ∧ sends t = [] ∧ st = Running).
Proof.
  intros H1 H2 H3.
  assert (Hev : ∀ order, HandleBoard_event env order b m = (b, [], Running)).
  { intros order. unfold HandleBoard_event.
    apply Z.eqb_neq in H1, H2, H3. by rewrite H1, H2, H3. }
  split.
  - exists (map_to_list (clients b)). by rewrite Hev.
  - intros b' t st (order & _ & Heq). rewrite Hev in Heq. by inversion Heq.
Qed.

Lemma unknown_type_is_ignored_witness :
  HandleBoard_step listening room
    {| Type_ := 3; Msg := "hi"; Name := "alice"; ReplyCh := Some carol_ch |}
    (room, [], Running)
  ∧ (∀ b' t st,
      HandleBoard_step listening room
        {| Type_ := 3; Msg := "hi"; Name := "alice"; ReplyCh := Some carol_ch |}
        (b', t, st) →
      b' = room ∧ clients b' = clients room ∧ t = [] ∧ sends t = [] ∧ st = Running).
Proof.
  apply (unknown_type_is_ignored listening room
           {| Type_ := 3; Msg := "hi"; Name := "alice"; ReplyCh := Some carol_ch |});
    simpl; unfold LOGIN, LOGOUT, TEXTLINE; lia.
Defined.

(** ** Sequences of turns *)

Lemma sends_app t1 t2 : sends (t1 ++ t2) = sends t1 ++ sends t2.
Proof.
  induction t1 as [|[out|to ch m] t1 IH]; simpl; [done|done|]. by rewrite IH.
Qed.

(** Whatever the event, a turn sends only to members, on their channels. *)
Lemma HandleBoard_step_sends_bound env b m b' t st to c m' :
  HandleBoard_step env b m (b', t, st) →
  (to, c, m') ∈ sends t →
  clients b !! to = Some (Some c).
Proof.
  intros (order & Hperm & Heq) Hin. unfold HandleBoard_event in Heq.
  destruct (Z.eqb (Type_ m) LOGIN);
    [inversion Heq; subst; simpl in Hin; inversion Hin|].
  destruct (Z.eqb (Type_ m) LOGOUT);
    [inversion Heq; subst; simpl in Hin; inversion Hin|].
  destruct (Z.eqb (Type_ m) TEXTLINE);
    [|inversion Heq; subst; simpl in Hin; inversion Hin].
  destruct (forward env m order) as [t0 st0] eqn:E.
  inversion Heq; subst. simpl in Hin.
  replace t0 with (forward env m order).1 in Hin by (by rewrite E).
  apply forward_sends_sound in Hin as (_ & _ & Hin).
  rewrite Hperm in Hin. by apply elem_of_map_to_list in Hin.
Qed.

(** A channel bound to no name stays so, as long as no Login brings it. *)
Lemma next_clients_unbound c cl m :
  unbound c cl →
  (Type_ m = LOGIN → ReplyCh m ≠ Some c) →
  unbound c (next_clients cl m).
Proof.
  intros Hun Hm name. unfold next_clients.
  destruct (Z.eqb_spec (Type_ m) LOGIN) as [Hty|_].
  - rewrite lookup_insert. case_decide; [|apply Hun].
    intros [= Heq]. by apply Hm.
  - destruct (Z.eqb (Type_ m) LOGOUT); [|apply Hun].
    rewrite lookup_delete. case_decide; [done|apply Hun].
Qed.

Lemma HandleBoard_unbound_silent c b ms b' t st :
  HandleBoard b ms b' t st →
  unbound c (clients b) →
  Forall (λ e, Type_ e = LOGIN → ReplyCh e ≠ Some c) ms →
  ∀ to m', (to, c, m') ∉ sends t.
Proof.
  induction 1 as [b|env b m ms b1 t1 b2 t2 st Hstep Hrun IH
                   |env b m ms b1 t1 st Hstep Hst];
    intros Hun Hall to m' Hin.
  - inversion Hin.
  - rewrite sends_app, elem_of_app in Hin. destruct Hin as [Hin|Hin].
    + eapply Hun, HandleBoard_step_sends_bound; eauto.
    + apply Forall_cons in Hall as [Hm Hms].
      eapply IH; eauto.
      rewrite (HandleBoard_step_clients _ _ _ _ _ _ Hstep). simpl.
      by apply next_clients_unbound.
  - eapply Hun, HandleBoard_step_sends_bound; eauto.
Qed.

(** C3. A Login for a name that is already a member replaces the binding:
    the name is bound to the channel of this Login; at the next Publish
    the name is served on that channel only, and it is served when the
    publisher is another name and the members are receiving; the channel of
    the earlier Login, if it is another channel and no other name holds
    it, is sent nothing in any later sequence of turns in which no Login
    brings it again. *)
Theorem second_login_wins env b m b' t st c1 :
  clients b !! Name m = Some c1 →
  Type_ m = LOGIN →
  HandleBoard_step env b m (b', t, st) →
  (clients b' !! Name m = Some (ReplyCh m) ∧ st = Running)
  ∧ (∀ env' p bp tp stp,
       Type_ p = TEXTLINE →
       HandleBoard_step env' b' p (bp, tp, stp) →
       (∀ c m', (Name m, c, m') ∈ sends tp → ReplyCh m = Some c)
       ∧ (Name p ≠ Name m → receivers_ready env' (clients b') (Name p) →
          ∃ c, ReplyCh m = Some c ∧ (Name m, c, p) ∈ sends tp))
  ∧ (∀ c, c1 = Some c → ReplyCh m ≠ Some c →
       (∀ name, clients b !! name = Some (Some c) → name = Name m) →
       ∀ ms bf tf stf,
         Forall (λ e, Type_ e = LOGIN → ReplyCh e ≠ Some c) ms →
         HandleBoard b' ms bf tf stf →
         ∀ to m', (to, c, m') ∉ sends tf).
Proof.
  intros Hold Hty Hstep.
  apply HandleBoard_step_login in Hstep as (-> & _ & ->); [|done].
  simpl. split; [|split].
  - by rewrite lookup_insert_eq.
  - intros env' p bp tp stp Htp Hp.
    destruct (publish_step_sends env' _ p bp tp stp Htp Hp) as [Hsound Hall].
    simpl in *. split.
    + intros c m' Hin. apply Hsound in Hin as (_ & _ & Hl).
      rewrite lookup_insert_eq in Hl. congruence.
    + intros Hne Hready.
      destruct (Hready (Name m) (ReplyCh m)) as (c & Hc & _);
        [by rewrite lookup_insert_eq|congruence|].
      exists c. split; [done|]. apply Hall; [done| |congruence].
      by rewrite lookup_insert_eq, Hc.
  - intros c -> Hne Honly ms bf tf stf Hms Hrun.
    eapply HandleBoard_unbound_silent; eauto.
    intros name. simpl. rewrite lookup_insert. case_decide.
    + congruence.
    + intros Hl. apply Honly in Hl. congruence.
Qed.

Lemma second_login_wins_witness :
  (clients room_bob_again !! "bob" = Some (Some carol_ch) ∧ Running = Running)
  ∧ (∀ env' p bp tp stp,
       Type_ p = TEXTLINE →
       HandleBoard_step env' room_bob_again p (bp, tp, stp) →
       (∀ c m', ("bob", c, m') ∈ sends tp → Some carol_ch = Some c)
       ∧ (Name p ≠ "bob" → receivers_ready env' (clients room_bob_again) (Name p) →
          ∃ c, Some carol_ch = Some c ∧ ("bob", c, p) ∈ sends tp))
  ∧ (∀ c, Some bob_ch = Some c → Some carol_ch ≠ Some c →
       (∀ name, clients room !! name = Some (Some c) → name = "bob") →
       ∀ ms bf tf stf,
         Forall (λ e, Type_ e = LOGIN → ReplyCh e ≠ Some c) ms →
         HandleBoard room_bob_again ms bf tf stf →
         ∀ to m', (to, c, m') ∉ sends tf).
Proof.
  apply (second_login_wins listening room (Login "bob" (Some carol_ch)) room_bob_again
           [Printf ("login from [bob]" +:+ LF)] Running (Some bob_ch)).
  - reflexivity.
  - reflexivity.
  - by_turn.
Defined.

(** ** The connection handler *)

Example trim_bob :
  TrimSpace ("  bob " +:+ String (Ascii.ascii_of_nat 13) LF) = "bob".
Proof. vm_compute. reflexivity. Qed.

Example serve_alice :
  Serve_submits true alice_ch ("alice" +:+ LF +:+ "Hello, everyone!" +:+ LF)
  = [Login "alice" (Some alice_ch); Publish "alice" ("Hello, everyone!" +:+ LF);
     Logout "alice"].
Proof. vm_compute. reflexivity. Qed.

Example bob_reads_alice :
  Serve_writes [Publish "alice" ("Hello, everyone!" +:+ LF)]
  = "username> alice: Hello, everyone!" +:+ LF.
Proof. vm_compute. reflexivity. Qed.

(** *** Lines *)

Lemma ReadString_shape delim s line rest :
  ReadString delim s = Some (line, rest) →
  s = line +:+ rest ∧ ReadString delim line = Some (line, "")
  ∧ (String.length rest < String.length s)%nat.
Proof.
  revert line rest. induction s as [|c s IH]; intros line rest; simpl; [done|].
  destruct (Ascii.eqb c delim) eqn:E.
  - intros [= <- <-]. simpl. rewrite E. repeat split; auto.
  - destruct (ReadString delim s) as [[l r]|]; [|done].
    intros [= <- <-]. destruct (IH l r eq_refl) as (-> & Hl & Hlen).
    simpl. rewrite E, Hl. repeat split; auto; lia.
Qed.

Lemma ReadString_line_app delim line s :
  ReadString delim line = Some (line, "") →
  ReadString delim (line +:+ s) = Some (line, s).
Proof.
  induction line as [|c line IH]; simpl; [done|].
  destruct (Ascii.eqb c delim).
  - intros H. inversion H; subst. done.
  - destruct (ReadString delim line) as [[l r]|] eqn:E; [|done].
    intros H. inversion H; subst. by rewrite IH.
Qed.

(** A line ends with the newline. *)
Lemma is_line_ends l : is_line l → ∃ body, l = body +:+ LF.
Proof.
  unfold is_line. induction l as [|c l IH]; simpl; [done|].
  destruct (Ascii.eqb_spec c newline) as [->|Hne].
  - intros H. inversion H; subst. by exists "".
  - destruct (ReadString newline l) as [[l' r]|] eqn:E; [|done].
    intros H. inversion H; subst. destruct (IH eq_refl) as [body ->].
    by exists (String c body).
Qed.

Lemma is_line_nonempty l : is_line l → (0 < String.length l)%nat.
Proof. unfold is_line. destruct l; simpl; [done|lia]. Qed.

Lemma length_append (s1 s2 : string) :
  String.length (s1 +:+ s2) = (String.length s1 + String.length s2)%nat.
Proof. induction s1 as [|c s1 IH]; simpl; [done|]. by rewrite IH. Qed.

Lemma join_length lines tail :
  Forall is_line lines →
  (List.length lines ≤ String.length (join lines tail))%nat.
Proof.
  induction 1 as [|l lines Hl _ IH]; simpl; [lia|].
  rewrite length_append. apply is_line_nonempty in Hl. lia.
Qed.

(** Every input is a sequence of lines followed by bytes without a newline. *)
Lemma input_is_lines s :
  ∃ lines tail,
    s = join lines tail ∧ Forall is_line lines ∧ ReadString newline tail = None.
Proof.
  remember (String.length s) as n eqn:Hn. revert s Hn.
  induction n as [n IH] using lt_wf_ind. intros s ->.
  destruct (ReadString newline s) as [[line rest]|] eqn:E.
  - destruct (ReadString_shape _ _ _ _ E) as (-> & Hline & Hlen).
    destruct (IH _ Hlen rest eq_refl) as (lines & tail & -> & Hl & Ht).
    exists (line :: lines), tail. split; [done|]. split; [|done].
    by constructor.
  - exists [], s. done.
Qed.

(** The reading goroutine publishes every line and then logs out. *)
Lemma reader_lines fuel name lines tail :
  Forall is_line lines →
  ReadString newline tail = None →
  (List.length lines < fuel)%nat →
  reader fuel name (join lines tail) = map (Publish name) lines ++ [Logout name].
Proof.
  intros Hlines Htail. revert fuel.
  induction Hlines as [|l lines Hl _ IH]; intros fuel Hfuel.
  - destruct fuel; [simpl in Hfuel; lia|]. simpl. by rewrite Htail.
  - destruct fuel; [simpl in Hfuel; lia|]. simpl.
    rewrite (ReadString_line_app _ _ _ Hl). f_equal.
    apply IH. simpl in Hfuel. lia.
Qed.

(** C7. After the line that names the client, every line the client sends
    is submitted as it was read, newline included, as a Publish under the
    client's name, followed by a Logout when the stream ends; whoever is
    sent that Publish by the board writes the name, a colon, a blank and
    the line, and nothing else; and when the members are receiving, every
    member of another name is sent it. *)
Theorem lines_are_broadcast_verbatim reply first lines tail :
  is_line first →
  Forall is_line lines →
  ReadString newline tail = None →
  Serve_submits true reply (first +:+ join lines tail)
    = Login (TrimSpace first) (Some reply)
        :: map (Publish (TrimSpace first)) lines ++ [Logout (TrimSpace first)]
  ∧ (∀ l, l ∈ lines →
       (∃ body, l = body +:+ LF)
       ∧ Msg (Publish (TrimSpace first) l) = l
       ∧ ∀ env b b' t st,
           HandleBoard_step env b (Publish (TrimSpace first) l) (b', t, st) →
           (∀ to c r, (to, c, r) ∈ sends t →
              to ≠ TrimSpace first
              ∧ relay [(r, true)] = [TrimSpace first +:+ ": " +:+ l]
              ∧ Serve_writes [r] = "username> " +:+ TrimSpace first +:+ ": " +:+ l)
           ∧ (receivers_ready env (clients b) (TrimSpace first) →
              ∀ to c, clients b !! to = Some (Some c) → to ≠ TrimSpace first →
                ∃ r, (to, c, r) ∈ sends t ∧ relay_line r = TrimSpace first +:+ ": " +:+ l)).
Proof.
  intros Hfirst Hlines Htail. split.
  - unfold Serve_submits. rewrite (ReadString_line_app _ _ _ Hfirst).
    simpl. f_equal.
    change (reader (S (String.length (join lines tail))) (TrimSpace first)
              (join lines tail)
            = map (Publish (TrimSpace first)) lines ++ [Logout (TrimSpace first)]).
    apply reader_lines; auto.
    pose proof (join_length lines tail Hlines). lia.
  - intros l Hl. split; [|split; [done|]].
    { apply is_line_ends. by eapply Forall_forall in Hlines. }
    intros env b b' t st Hstep.
    destruct (publish_step_sends env b (Publish (TrimSpace first) l) b' t st
                eq_refl Hstep) as [Hsound Hall].
    simpl in *. split.
    + intros to c r Hin. apply Hsound in Hin as (Hne & -> & _).
      split; [done|]. split; [done|].
      reflexivity.
    + intros Hready to c Hto Hne. eexists. split; [by apply Hall|done].
Qed.

Lemma relay_all_written received :
  relay (map (λ r, (r, true)) received) = map relay_line received.
Proof. induction received as [|r rs IH]; simpl; [done|]. by rewrite IH. Qed.

Lemma lines_are_broadcast_verbatim_witness :
  Serve_submits true alice_ch
    (("alice" +:+ LF) +:+ join ["Hello, everyone!" +:+ LF; "bye" +:+ LF] "unfinished")
    = Login (TrimSpace ("alice" +:+ LF)) (Some alice_ch)
        :: map (Publish (TrimSpace ("alice" +:+ LF)))
             ["Hello, everyone!" +:+ LF; "bye" +:+ LF]
           ++ [Logout (TrimSpace ("alice" +:+ LF))]
  ∧ (∀ l, l ∈ ["Hello, everyone!" +:+ LF; "bye" +:+ LF] →
       (∃ body, l = body +:+ LF)
       ∧ Msg (Publish (TrimSpace ("alice" +:+ LF)) l) = l
       ∧ ∀ env b b' t st,
           HandleBoard_step env b (Publish (TrimSpace ("alice" +:+ LF)) l) (b', t, st) →
           (∀ to c r, (to, c, r) ∈ sends t →
              to ≠ TrimSpace ("alice" +:+ LF)
              ∧ relay [(r, true)] = [TrimSpace ("alice" +:+ LF) +:+ ": " +:+ l]
              ∧ Serve_writes [r]
                = "username> " +:+ TrimSpace ("alice" +:+ LF) +:+ ": " +:+ l)
           ∧ (receivers_ready env (clients b) (TrimSpace ("alice" +:+ LF)) →
              ∀ to c, clients b !! to = Some (Some c) →
                to ≠ TrimSpace ("alice" +:+ LF) →
                ∃ r, (to, c, r) ∈ sends t
                     ∧ relay_line r = TrimSpace ("alice" +:+ LF) +:+ ": " +:+ l)).
Proof.
  apply (lines_are_broadcast_verbatim alice_ch ("alice" +:+ LF)
           ["Hello, everyone!" +:+ LF; "bye" +:+ LF] "unfinished").
  - reflexivity.
  - repeat constructor.
  - reflexivity.
Defined.

(** *** White space *)

Lemma space2_not_ascii c1 c2 : space2 c1 c2 = true → asciiSpace c1 = false.
Proof.
  unfold space2, asciiSpace. generalize (byte_of c1) (byte_of c2). intros n1 n2.
  destruct (N.eqb_spec n1 0xC2) as [->|]; [done|by rewrite andb_false_l].
Qed.

Lemma space3_not_shorter c1 c2 c3 :
  space3 c1 c2 c3 = true → asciiSpace c1 = false ∧ space2 c1 c2 = false.
Proof.
  unfold space3, space2, asciiSpace.
  generalize (byte_of c1) (byte_of c2) (byte_of c3). intros n1 n2 n3.
  destruct (N.eqb_spec n1 0xE1) as [->|];
    [done|destruct (N.eqb_spec n1 0xE2) as [->|];
      [done|destruct (N.eqb_spec n1 0xE3) as [->|]; [done|]]].
  by rewrite !andb_false_l.
Qed.

Lemma spaces_app a b : spaces a → spaces b → spaces (a ++ b).
Proof.
  induction 1; intros Hb; simpl; [done| | |].
  - apply spaces_ascii; auto.
  - apply spaces_two; auto.
  - apply spaces_three; auto.
Qed.

(** A sequence of white space runes is trimmed to nothing. *)
Lemma trim_front_spaces bs : spaces bs → trim_front bs = [].
Proof.
  induction 1 as [|c r Hc _ IH|c1 c2 r H2 _ IH|c1 c2 c3 r H3 _ IH]; simpl.
  - done.
  - by rewrite Hc.
  - by rewrite (space2_not_ascii _ _ H2), H2.
  - destruct (space3_not_shorter _ _ _ H3) as [-> ->]. by rewrite H3.
Qed.

(** Induction on the bytes that follows [trim_front]: a rune at a time. *)
Lemma rune_ind (P : list ascii → Prop) :
  (∀ bs, (∀ r, (List.length r < List.length bs)%nat → P r) → P bs) →
  ∀ bs, P bs.
Proof.
  intros Hstep bs. remember (List.length bs) as n eqn:Hn. revert bs Hn.
  induction n as [n IH] using lt_wf_ind. intros bs ->.
  apply Hstep. intros r Hr. by apply (IH (List.length r)).
Qed.

(** What [trim_front] removes is a sequence of white space runes, and what
    it leaves does not start with one. *)
Lemma trim_front_split bs :
  ∃ pre, bs = pre ++ trim_front bs ∧ spaces pre.
Proof.
  induction bs as [bs IH] using rune_ind.
  destruct bs as [|c1 r1]; [exists []; split; [done|constructor]|].
  simpl. destruct (asciiSpace c1) eqn:E1.
  { destruct (IH r1) as (pre & Hpre & Hsp); [simpl; lia|].
    exists (c1 :: pre). split; [simpl; congruence|by apply spaces_ascii]. }
  destruct r1 as [|c2 r2]; [exists []; split; [done|constructor]|].
  destruct (space2 c1 c2) eqn:E2.
  { destruct (IH r2) as (pre & Hpre & Hsp); [simpl; lia|].
    exists (c1 :: c2 :: pre). split; [simpl; congruence|by apply spaces_two]. }
  destruct r2 as [|c3 r3]; [exists []; split; [done|constructor]|].
  destruct (space3 c1 c2 c3) eqn:E3.
  { destruct (IH r3) as (pre & Hpre & Hsp); [simpl; lia|].
    exists (c1 :: c2 :: c3 :: pre).
    split; [simpl; congruence|by apply spaces_three]. }
  exists []. split; [done|constructor].
Qed.

Lemma trim_front_no_space bs : space_width (trim_front bs) = 0%nat.
Proof.
  induction bs as [bs IH] using rune_ind.
  destruct bs as [|c1 r1]; [done|].
  simpl. destruct (asciiSpace c1) eqn:E1; [apply IH; simpl; lia|].
  destruct r1 as [|c2 r2]; [simpl; by rewrite E1|].
  destruct (space2 c1 c2) eqn:E2; [apply IH; simpl; lia|].
  destruct r2 as [|c3 r3]; [simpl; by rewrite E1, E2|].
  destruct (space3 c1 c2 c3) eqn:E3; [apply IH; simpl; lia|].
  simpl. by rewrite E1, E2, E3.
Qed.

(** The same for the trailing runes, on the bytes in reverse. *)
Lemma trim_back_rev_split rs :
  ∃ post, rs = post ++ trim_back_rev rs ∧ spaces (rev post).
Proof.
  induction rs as [rs IH] using rune_ind.
  destruct rs as [|c1 r1]; [exists []; split; [done|constructor]|].
  simpl. destruct (asciiSpace c1) eqn:E1.
  { destruct (IH r1) as (post & Hpost & Hsp); [simpl; lia|].
    exists (c1 :: post). split; [simpl; congruence|].
    simpl. apply spaces_app; [done|]. apply spaces_ascii; [done|constructor]. }
  destruct r1 as [|c2 r2]; [exists []; split; [done|constructor]|].
  destruct (space2 c2 c1) eqn:E2.
  { destruct (IH r2) as (post & Hpost & Hsp); [simpl; lia|].
    exists (c1 :: c2 :: post). split; [simpl; congruence|].
    simpl. rewrite <- app_assoc. apply spaces_app; [done|].
    apply spaces_two; [done|constructor]. }
  destruct r2 as [|c3 r3]; [exists []; split; [done|constructor]|].
  destruct (space3 c3 c2 c1) eqn:E3.
  { destruct (IH r3) as (post & Hpost & Hsp); [simpl; lia|].
    exists (c1 :: c2 :: c3 :: post). split; [simpl; congruence|].
    simpl. rewrite <- !app_assoc. apply spaces_app; [done|].
    apply spaces_three; [done|constructor]. }
  exists []. split; [done|constructor].
Qed.

Lemma trim_back_rev_no_space rs : space_width_back (trim_back_rev rs) = 0%nat.
Proof.
  induction rs as [rs IH] using rune_ind.
  destruct rs as [|c1 r1]; [done|].
  simpl. destruct (asciiSpace c1) eqn:E1; [apply IH; simpl; lia|].
  destruct r1 as [|c2 r2]; [simpl; by rewrite E1|].
  destruct (space2 c2 c1) eqn:E2; [apply IH; simpl; lia|].
  destruct r2 as [|c3 r3]; [simpl; by rewrite E1, E2|].
  destruct (space3 c3 c2 c1) eqn:E3; [apply IH; simpl; lia|].
  simpl. by rewrite E1, E2, E3.
Qed.

(** A prefix of bytes that start with no white space rune starts with none. *)
Lemma space_width_prefix y z :
  space_width (y ++ z) = 0%nat → space_width y = 0%nat.
Proof.
  destruct y as [|c1 [|c2 [|c3 r]]]; simpl; [done| | |].
  - destruct (asciiSpace c1); [done|]. done.
  - destruct (asciiSpace c1); [done|]. destruct (space2 c1 c2); [done|]. done.
  - done.
Qed.

Lemma trim_back_split bs :
  ∃ post, bs = trim_back bs ++ post ∧ spaces post.
Proof.
  destruct (trim_back_rev_split (rev bs)) as (post & Hpost & Hsp).
  exists (rev post). split; [|done]. unfold trim_back.
  rewrite <- rev_app_distr, <- Hpost. by rewrite rev_involutive.
Qed.

Lemma string_of_list_ascii_app a b :
  string_of_list_ascii (a ++ b) = string_of_list_ascii a +:+ string_of_list_ascii b.
Proof. induction a as [|c a IH]; simpl; [done|]. by rewrite IH. Qed.

(** [TrimSpace] removes a sequence of white space runes at each end and
    leaves a string that neither starts nor ends with one. *)
Lemma TrimSpace_split s :
  ∃ pre post,
    s = string_of_list_ascii pre +:+ TrimSpace s +:+ string_of_list_ascii post
    ∧ spaces pre ∧ spaces post.
Proof.
  destruct (trim_front_split (list_ascii_of_string s)) as (pre & Hpre & Hsp).
  destruct (trim_back_split (trim_front (list_ascii_of_string s)))
    as (post & Hpost & Hsq).
  exists pre, post. split; [|done]. unfold TrimSpace.
  rewrite <- !string_of_list_ascii_app, <- Hpost, <- Hpre.
  by rewrite string_of_list_ascii_of_string.
Qed.

Lemma TrimSpace_no_space_front s :
  space_width (list_ascii_of_string (TrimSpace s)) = 0%nat.
Proof.
  unfold TrimSpace. rewrite list_ascii_of_string_of_list_ascii.
  destruct (trim_back_split (trim_front (list_ascii_of_string s)))
    as (post & Hpost & _).
  apply (space_width_prefix _ post). rewrite <- Hpost.
  apply trim_front_no_space.
Qed.

Lemma TrimSpace_no_space_back s :
  space_width_back (rev (list_ascii_of_string (TrimSpace s))) = 0%nat.
Proof.
  unfold TrimSpace, trim_back.
  rewrite list_ascii_of_string_of_list_ascii, rev_involutive.
  apply trim_back_rev_no_space.
Qed.

Lemma TrimSpace_spaces s : spaces (list_ascii_of_string s) → TrimSpace s = "".
Proof. intros Hs. unfold TrimSpace. by rewrite (trim_front_spaces _ Hs). Qed.

(** C8. The first line is trimmed and what is left is the name of the
    Login: the line is the name between two sequences of white space
    runes, the name neither starts nor ends with such a rune, a line of
    white space only gives the empty name, and the board binds whatever
    name results, the empty one included, to the channel of the
    connection. *)
Theorem first_line_names_the_client reply input line rest :
  ReadString newline input = Some (line, rest) →
  (∃ later, Serve_submits true reply input
              = Login (TrimSpace line) (Some reply) :: later)
  ∧ (∃ pre post,
       line = string_of_list_ascii pre +:+ TrimSpace line +:+ string_of_list_ascii post
       ∧ spaces pre ∧ spaces post)
  ∧ space_width (list_ascii_of_string (TrimSpace line)) = 0%nat
  ∧ space_width_back (rev (list_ascii_of_string (TrimSpace line))) = 0%nat
  ∧ (spaces (list_ascii_of_string line) →
     TrimSpace line = ""
     ∧ ∃ later, Serve_submits true reply input = Login "" (Some reply) :: later)
  ∧ (∀ env b b' t st,
       HandleBoard_step env b (Login (TrimSpace line) (Some reply)) (b', t, st) →
       clients b' !! TrimSpace line = Some (Some reply) ∧ st = Running).
Proof.
  intros Hread.
  assert (Hsub : ∃ later, Serve_submits true reply input
                            = Login (TrimSpace line) (Some reply) :: later).
  { unfold Serve_submits. rewrite Hread. eauto. }
  split; [done|]. split; [apply TrimSpace_split|].
  split; [apply TrimSpace_no_space_front|].
  split; [apply TrimSpace_no_space_back|]. split.
  - intros Hs. rewrite <- (TrimSpace_spaces _ Hs). done.
  - intros env b b' t st Hstep.
    apply HandleBoard_step_login in Hstep as (-> & _ & ->); [|done].
    simpl. by rewrite lookup_insert_eq.
Qed.

Lemma first_line_names_the_client_witness :
  (∃ later, Serve_submits true carol_ch ("  " +:+ LF +:+ "hi" +:+ LF)
              = Login (TrimSpace ("  " +:+ LF)) (Some carol_ch) :: later)
  ∧ (∃ pre post,
       "  " +:+ LF
       = string_of_list_ascii pre +:+ TrimSpace ("  " +:+ LF)
           +:+ string_of_list_ascii post
       ∧ spaces pre ∧ spaces post)
  ∧ space_width (list_ascii_of_string (TrimSpace ("  " +:+ LF))) = 0%nat
  ∧ space_width_back (rev (list_ascii_of_string (TrimSpace ("  " +:+ LF)))) = 0%nat
  ∧ (spaces (list_ascii_of_string ("  " +:+ LF)) →
     TrimSpace ("  " +:+ LF) = ""
     ∧ ∃ later, Serve_submits true carol_ch ("  " +:+ LF +:+ "hi" +:+ LF)
                 = Login "" (Some carol_ch) :: later)
  ∧ (∀ env b b' t st,
       HandleBoard_step env b (Login (TrimSpace ("  " +:+ LF)) (Some carol_ch))
         (b', t, st) →
       clients b' !! TrimSpace ("  " +:+ LF) = Some (Some carol_ch) ∧ st = Running).
Proof.
  apply (first_line_names_the_client carol_ch ("  " +:+ LF +:+ "hi" +:+ LF)
           ("  " +:+ LF) ("hi" +:+ LF)).
  reflexivity.
Defined.

Example trim_unicode_spaces :
  TrimSpace (String (Ascii.ascii_of_nat 194) (String (Ascii.ascii_of_nat 160)
              ("bob" +:+ String (Ascii.ascii_of_nat 227) (String (Ascii.ascii_of_nat 128)
                 (String (Ascii.ascii_of_nat 128) LF)))))
  = "bob".
Proof. vm_compute. reflexivity. Qed.

(** ** The handlers and the board together *)

Example two_handlers_run :
  consumed two_handlers_end
  = [Login "bob" (Some bob_ch); Login "alice" (Some alice_ch);
     Publish "alice" ("Hello, everyone!" +:+ LF); Logout "bob"]
  ∧ clients (actor two_handlers_end) = {[ "alice" := Some alice_ch ]}
  ∧ status two_handlers_end = Running.
Proof. vm_compute. done. Qed.

Lemma System_take_step env i s m rest :
  pending s !! i = Some (m :: rest) →
  status s = Running →
  System_step s (System_take env i s).
Proof.
  intros Hp Hs. unfold System_take. rewrite Hs, Hp.
  apply (System_rendezvous s i m rest env (HandleBoard_turn env (actor s) m));
    [done|done|apply HandleBoard_step_turn].
Qed.

Lemma clients_after_snoc cl ms m :
  clients_after cl (ms ++ [m]) = next_clients (clients_after cl ms) m.
Proof. unfold clients_after. by rewrite foldl_app. Qed.

(** A run of the event loop that is still running has applied every event. *)
Lemma HandleBoard_clients b ms b' t st :
  HandleBoard b ms b' t st →
  st = Running →
  clients b' = clients_after (clients b) ms.
Proof.
  induction 1 as [b|env b m ms b1 t1 b2 t2 st Hstep Hrun IH
                   |env b m ms b1 t1 st Hstep Hst]; intros Hr.
  - done.
  - rewrite (IH Hr), (HandleBoard_step_clients _ _ _ _ _ _ Hstep). done.
  - done.
Qed.

(** What holds in every state the handlers and the board can reach. *)
Lemma System_invariant handlers s :
  rtc System_step (System_init handlers) s →
  clients (actor s) = clients_after ∅ (consumed s)
  ∧ ∀ l, Interleaving (pending s) l → Interleaving handlers (consumed s ++ l).
Proof.
  revert s. apply rtc_ind_r.
  - done.
  - intros s s' Hrun Hstep [Hcl Hint].
    destruct Hstep as [s i m rest env [[b' t] st] Hp Hs Hb]. simpl. split.
    + rewrite clients_after_snoc, <- Hcl.
      by rewrite (HandleBoard_step_clients _ _ _ _ _ _ Hb).
    + intros l Hl. rewrite <- app_assoc. simpl. apply Hint.
      by apply (Interleaving_take _ i m rest).
Qed.

(** C2. Whatever the handlers submit and however their submissions
    interleave, in every state that can be reached: each rendezvous hands
    the loop one event; the events received so far, followed by any
    interleaving of what is still to be submitted, are an interleaving of
    what the handlers submit, so that when nothing is left the received
    sequence is one total order of all the events that keeps the order of
    every handler; the membership is the result of applying the received
    sequence, in that order, to the empty membership, and it is the
    membership any sequential run of the event loop over that sequence
    ends with; and while the loop runs, a waiting handler can be served. *)
Theorem board_serialises_events handlers s :
  rtc System_step (System_init handlers) s →
  clients (actor s) = clients_after ∅ (consumed s)
  ∧ (∀ l, Interleaving (pending s) l → Interleaving handlers (consumed s ++ l))
  ∧ (Forall (λ q, q = []) (pending s) → Interleaving handlers (consumed s))
  ∧ (∀ bf tf, HandleBoard (NewBoard "1") (consumed s) bf tf Running →
       clients bf = clients (actor s))
  ∧ (∀ s', System_step s s' → ∃ m, consumed s' = consumed s ++ [m])
  ∧ (status s = Running → ∀ i m rest, pending s !! i = Some (m :: rest) →
       ∃ s', System_step s s' ∧ consumed s' = consumed s ++ [m]).
Proof.
  intros Hrun. destruct (System_invariant handlers s Hrun) as [Hcl Hint].
  split; [done|]. split; [done|]. split; [|split; [|split]].
  - intros Hnil. rewrite <- (app_nil_r (consumed s)).
    apply Hint. by apply Interleaving_done.
  - intros bf tf Hseq. rewrite Hcl.
    by rewrite (HandleBoard_clients _ _ _ _ _ Hseq eq_refl).
  - intros s' Hstep. destruct Hstep. simpl. eauto.
  - intros Hs i m rest Hp. exists (System_take listening i s). split.
    + by apply (System_take_step listening i s m rest).
    + unfold System_take. by rewrite Hs, Hp.
Qed.

Lemma board_serialises_events_witness :
  clients (actor two_handlers_end) = clients_after ∅ (consumed two_handlers_end)
  ∧ (∀ l, Interleaving (pending two_handlers_end) l →
       Interleaving two_handlers (consumed two_handlers_end ++ l))
  ∧ (Forall (λ q, q = []) (pending two_handlers_end) →
       Interleaving two_handlers (consumed two_handlers_end))
  ∧ (∀ bf tf, HandleBoard (NewBoard "1") (consumed two_handlers_end) bf tf Running →
       clients bf = clients (actor two_handlers_end))
  ∧ (∀ s', System_step two_handlers_end s' →
       ∃ m, consumed s' = consumed two_handlers_end ++ [m])
  ∧ (status two_handlers_end = Running →
     ∀ i m rest, pending two_handlers_end !! i = Some (m :: rest) →
       ∃ s', System_step two_handlers_end s'
             ∧ consumed s' = consumed two_handlers_end ++ [m]).
Proof.
  apply (board_serialises_events two_handlers two_handlers_end).
  unfold two_handlers_end.
  eapply rtc_l; [eapply (System_take_step listening 0); reflexivity|].
  eapply rtc_l; [eapply (System_take_step listening 1); reflexivity|].
  eapply rtc_l; [eapply (System_take_step listening 1); reflexivity|].
  eapply rtc_l; [eapply (System_take_step listening 0); reflexivity|].
  apply rtc_refl.
Defined.

(** * Further properties of the board actor *)

(** ** How a Publish turn ends *)

Section ForwardOutcome.
Variable env : chan → ChanState.
Variable m : Notification.

(** A loop that runs to its end met only members that were receiving. *)
Lemma forward_running_ready entries :
  (forward env m entries).2 = Running →
  ∀ name ch, (name, ch) ∈ entries → name ≠ Name m →
    ∃ c, ch = Some c ∧ env c = Receiving.
Proof.
  induction entries as [|[name0 ch0] rest IH]; simpl; intros Hrun name ch Hin Hne.
  - inversion Hin.
  - destruct (decide (name0 = Name m)) as [->|Hne0].
    + apply elem_of_cons in Hin as [[= -> ->]|Hin]; [done|]. by eapply IH.
    + destruct ch0 as [c0|]; [|done].
      destruct (env c0) eqn:E; [|done|done].
      destruct (forward env m rest) as [t st] eqn:F. simpl in *.
      apply elem_of_cons in Hin as [[= -> ->]|Hin]; [eauto|]. by eapply IH.
Qed.

(** A loop that panics met a member whose channel was closed; one that
    blocks met a member with a [nil] channel or one nobody receives from. *)
Lemma forward_panicked entries :
  (forward env m entries).2 = Panicked →
  ∃ name c, (name, Some c) ∈ entries ∧ name ≠ Name m ∧ env c = Closed.
Proof.
  induction entries as [|[name0 ch0] rest IH]; simpl; [done|].
  destruct (decide (name0 = Name m)) as [->|Hne0].
  - intros H. destruct (IH H) as (name & c & Hin & ? & ?).
    exists name, c. split; [by apply list_elem_of_further|done].
  - destruct ch0 as [c0|]; [|done].
    destruct (env c0) eqn:E; [|done|].
    + destruct (forward env m rest) as [t st] eqn:F. simpl.
      intros H. destruct (IH H) as (name & c & Hin & ? & ?).
      exists name, c. split; [by apply list_elem_of_further|done].
    + intros _. exists name0, c0. split; [apply list_elem_of_here|done].
Qed.

Lemma forward_blocked entries :
  (forward env m entries).2 = Blocked →
  ∃ name ch, (name, ch) ∈ entries ∧ name ≠ Name m
    ∧ (ch = None ∨ ∃ c, ch = Some c ∧ env c = Stalled).
Proof.
  induction entries as [|[name0 ch0] rest IH]; simpl; [done|].
  destruct (decide (name0 = Name m)) as [->|Hne0].
  - intros H. destruct (IH H) as (name & ch & Hin & ? & ?).
    exists name, ch. split; [by apply list_elem_of_further|done].
  - destruct ch0 as [c0|].
    + destruct (env c0) eqn:E; [| |done].
      * destruct (forward env m rest) as [t st] eqn:F. simpl.
        intros H. destruct (IH H) as (name & ch & Hin & ? & ?).
        exists name, ch. split; [by apply list_elem_of_further|done].
      * intros _. exists name0, (Some c0).
        split; [apply list_elem_of_here|]. split; [done|]. right. eauto.
    + intros _. exists name0, None.
      split; [apply list_elem_of_here|]. split; [done|]. by left.
Qed.

End ForwardOutcome.

(** X1. A Publish turn runs to its end exactly when every member of
    another name is receiving on its channel; it panics only on a member
    whose channel has been closed, and blocks only on a member whose
    channel is [nil] or has no receiver. *)
Theorem publish_completes_iff_receiving env b m b' t st :
  Type_ m = TEXTLINE →
  HandleBoard_step env b m (b', t, st) →
  (st = Running ↔ receivers_ready env (clients b) (Name m))
  ∧ (st = Panicked →
     ∃ name c, clients b !! name = Some (Some c) ∧ name ≠ Name m ∧ env c = Closed)
  ∧ (st = Blocked →
     ∃ name ch, clients b !! name = Some ch ∧ name ≠ Name m
       ∧ (ch = None ∨ ∃ c, ch = Some c ∧ env c = Stalled)).
Proof.
  intros Hty Hstep.
  destruct (HandleBoard_step_publish _ _ _ _ _ _ Hty Hstep)
    as (order & Hperm & -> & Hs & ->).
  split; [split|split].
  - intros Hrun name ch Hl Hne.
    apply (forward_running_ready env m order Hrun name ch); [|done].
    rewrite Hperm. by apply elem_of_map_to_list.
  - intros Hready. apply forward_ready. intros name ch Hin.
    rewrite Hperm in Hin. apply elem_of_map_to_list in Hin. by apply Hready.
  - intros Hp. destruct (forward_panicked env m order Hp) as (name & c & Hin & ? & ?).
    exists name, c. split; [|done].
    rewrite Hperm in Hin. by apply elem_of_map_to_list in Hin.
  - intros Hb. destruct (forward_blocked env m order Hb) as (name & ch & Hin & ? & ?).
    exists name, ch. split; [|done].
    rewrite Hperm in Hin. by apply elem_of_map_to_list in Hin.
Qed.

Lemma publish_completes_iff_receiving_witness :
  (Blocked = Running ↔
     receivers_ready (λ c, if decide (c = alice_ch) then Stalled else Receiving)
       (clients room_of_alice) "bob")
  ∧ (Blocked = Panicked →
     ∃ name c, clients room_of_alice !! name = Some (Some c) ∧ name ≠ "bob"
       ∧ (if decide (c = alice_ch) then Stalled else Receiving) = Closed)
  ∧ (Blocked = Blocked →
     ∃ name ch, clients room_of_alice !! name = Some ch ∧ name ≠ "bob"
       ∧ (ch = None ∨ ∃ c, ch = Some c
            ∧ (if decide (c = alice_ch) then Stalled else Receiving) = Stalled)).
Proof.
  apply (publish_completes_iff_receiving
           (λ c, if decide (c = alice_ch) then Stalled else Receiving)
           room_of_alice (Publish "bob" "hi") room_of_alice
           [Printf ("msg from [bob]" +:+ LF); Printf ("  fwd to [alice]" +:+ LF)]
           Blocked).
  - reflexivity.
  - by_turn.
Defined.




(** ** Login and Logout over time *)

(** X3. A Login followed by a Logout for the same name leaves the
    membership without the name, whoever held it before; when the name
    was free the board is back to what it was. *)
Theorem login_then_logout env1 env2 b m1 m2 b1 t1 st1 b2 t2 st2 :
  Type_ m1 = LOGIN → Type_ m2 = LOGOUT → Name m2 = Name m1 →
  HandleBoard_step env1 b m1 (b1, t1, st1) →
  HandleBoard_step env2 b1 m2 (b2, t2, st2) →
  clients b2 = delete (Name m1) (clients b)
  ∧ (clients b !! Name m1 = None → b2 = b)
  ∧ st1 = Running ∧ st2 = Running.
Proof.
  intros Hty1 Hty2 Hn H1 H2.
  apply HandleBoard_step_login in H1 as (-> & _ & ->); [|done].
  apply HandleBoard_step_logout in H2 as (-> & _ & ->); [|done].
  simpl. rewrite Hn, delete_insert_eq. split; [done|]. split; [|done].
  intros Hnone. unfold set_clients. simpl.
  rewrite delete_id by done. by destruct b.
Qed.

Lemma login_then_logout_witness :
  clients room = delete "carol" (clients room)
  ∧ (clients room !! "carol" = None → room = room)
  ∧ Running = Running ∧ Running = Running.
Proof.
  apply (login_then_logout listening listening room
           (Login "carol" (Some carol_ch)) (Logout "carol")
           (set_clients room (<["carol" := Some carol_ch]> (clients room)))
           [Printf ("login from [carol]" +:+ LF)] Running
           room [Printf ("logout from [carol]" +:+ LF)] Running);
    try reflexivity.
  - by_turn.
  - by_turn.
Defined.

Lemma next_clients_lookup cl e n :
  next_clients cl e !! n =
    if decide (Name e = n) then
      if Z.eqb (Type_ e) LOGIN then Some (ReplyCh e)
      else if Z.eqb (Type_ e) LOGOUT then None
      else cl !! n
    else cl !! n.
Proof.
  unfold next_clients.
  destruct (Z.eqb (Type_ e) LOGIN).
  - rewrite lookup_insert. by repeat case_decide.
  - destruct (Z.eqb (Type_ e) LOGOUT).
    + rewrite lookup_delete. by repeat case_decide.
    + by case_decide.
Qed.

(** The binding of a name after a sequence of events: that of the last
    Login for it, if no Login or Logout for it comes later. *)
Lemma clients_after_lookup ms : ∀ cl n ch,
  clients_after cl ms !! n = Some ch ↔
    (∃ before m after, ms = before ++ m :: after ∧ Type_ m = LOGIN
       ∧ Name m = n ∧ ReplyCh m = ch ∧ quiet n after)
    ∨ (cl !! n = Some ch ∧ quiet n ms).
Proof.
  induction ms as [|e ms IH]; intros cl n ch.
  - simpl. split.
    + intros H. right. split; [done|constructor].
    + intros [(before & m & after & Heq & _)|[H _]]; [|done].
      by destruct before.
  - change (clients_after cl (e :: ms))
      with (clients_after (next_clients cl e) ms).
    rewrite IH, next_clients_lookup. split.
    + intros [(before & m & after & -> & ? & ? & ? & ?)|[Hl Hq]].
      * left. exists (e :: before), m, after. done.
      * destruct (decide (Name e = n)) as [Hn|Hn].
        -- destruct (Z.eqb_spec (Type_ e) LOGIN) as [Hty|Hty].
           ++ left. exists [], e, ms. repeat split; auto. congruence.
           ++ destruct (Z.eqb_spec (Type_ e) LOGOUT) as [Hty'|Hty']; [done|].
              right. split; [done|]. by constructor.
        -- right. split; [done|]. constructor; [done|done].
    + intros [(before & m & after & Heq & Hty & Hn & Hch & Hq)|[Hl Hq]].
      * destruct before as [|e' before]; simpl in Heq; inversion Heq; subst.
        -- right. split; [|done]. rewrite decide_True by done.
           by rewrite Hty.
        -- left. exists before, m, after. done.
      * apply Forall_cons in Hq as [He Hq]. right. split; [|done].
        destruct (decide (Name e = n)) as [Hn|Hn]; [|done].
        destruct (He Hn) as [H1 H2].
        apply Z.eqb_neq in H1, H2. by rewrite H1, H2.
Qed.

(** X4. After any run of the event loop from a new board, a name is bound
    to a channel exactly when some Login for the name supplied that
    channel and no later event of the run is a Login or a Logout for the
    name. *)
Theorem member_iff_last_login ms b t n ch :
  HandleBoard (NewBoard "1") ms b t Running →
  (clients b !! n = Some ch ↔
     ∃ before m after, ms = before ++ m :: after ∧ Type_ m = LOGIN
       ∧ Name m = n ∧ ReplyCh m = ch ∧ quiet n after).
Proof.
  intros Hrun. rewrite (HandleBoard_clients _ _ _ _ _ Hrun eq_refl).
  rewrite clients_after_lookup. simpl. split.
  - intros [H|[H _]]; [done|]. by rewrite lookup_empty in H.
  - intros H. by left.
Qed.

Lemma member_iff_last_login_witness :
  clients room_of_alice !! "alice" = Some (Some alice_ch) ↔
    ∃ before m after,
      [Login "bob" (Some bob_ch); Login "alice" (Some alice_ch); Logout "bob"]
        = before ++ m :: after
      ∧ Type_ m = LOGIN ∧ Name m = "alice" ∧ ReplyCh m = Some alice_ch
      ∧ quiet "alice" after.
Proof.
  eapply (member_iff_last_login
            [Login "bob" (Some bob_ch); Login "alice" (Some alice_ch); Logout "bob"]
            room_of_alice _ "alice" (Some alice_ch)).
  eapply (HandleBoard_next listening); [by_turn|].
  eapply (HandleBoard_next listening); [by_turn|].
  eapply (HandleBoard_next listening); [by_turn|].
  apply HandleBoard_idle.
Defined.

(** ** Handlers with names of their own *)

(** The binding of a name depends on the events for that name only. *)
Lemma clients_after_filter n ms : ∀ cl cl',
  cl !! n = cl' !! n →
  clients_after cl ms !! n
    = clients_after cl' (filter (λ e, Name e = n) ms) !! n.
Proof.
  induction ms as [|e ms IH]; intros cl cl' Heq; [done|].
  change (clients_after cl (e :: ms))
    with (clients_after (next_clients cl e) ms).
  destruct (decide (Name e = n)) as [Hn|Hn].
  - rewrite filter_cons_True by done.
    change (clients_after cl' (e :: filter (λ e, Name e = n) ms))
      with (clients_after (next_clients cl' e) (filter (λ e, Name e = n) ms)).
    apply IH. rewrite !next_clients_lookup, Heq. done.
  - rewrite filter_cons_False by done.
    apply IH. rewrite next_clients_lookup, decide_False by done. done.
Qed.

Lemma filter_concat_nil {A} (P : A → Prop) `{∀ x, Decision (P x)}
    (qs : list (list A)) :
  (∀ j q x, qs !! j = Some q → x ∈ q → ¬ P x) →
  filter P (List.concat qs) = [].
Proof.
  induction qs as [|q qs IH]; intros Hno; [done|].
  simpl. rewrite filter_app, IH.
  - rewrite app_nil_r. induction q as [|x q IHq]; [done|].
    rewrite filter_cons_False.
    + apply IHq. intros j q' y Hj Hy. destruct j as [|j].
      * simpl in Hj. inversion Hj; subst.
        apply (Hno 0%nat (x :: q') y); [done|]. by apply list_elem_of_further.
      * by apply (Hno (S j) q' y).
    + apply (Hno 0%nat (x :: q) x); [done|]. apply list_elem_of_here.
  - intros j q' y Hj Hy. by apply (Hno (S j) q' y).
Qed.

Lemma concat_all_nil {A} (qs : list (list A)) :
  Forall (λ q, q = []) qs → List.concat qs = [].
Proof. induction 1 as [|q qs -> _ IH]; simpl; [done|done]. Qed.

Lemma own_names_take qs i x q :
  own_names qs → qs !! i = Some (x :: q) → own_names (<[i := q]> qs).
Proof.
  intros Hown Hi j k q1 q2 m1 m2 Hj Hk H1 H2 Hn.
  apply list_lookup_insert_Some in Hj, Hk.
  destruct Hj as [(<- & <- & _)|[Hij Hj]], Hk as [(<- & <- & _)|[Hik Hk]].
  - done.
  - apply (Hown i k (x :: q) q2 m1 m2); auto. by apply list_elem_of_further.
  - apply (Hown j i q1 (x :: q) m1 m2); auto. by apply list_elem_of_further.
  - by apply (Hown j k q1 q2 m1 m2).
Qed.

(** In an interleaving of handlers with names of their own, the events
    for a name are those of its handler, in the handler's order. *)
Lemma Interleaving_filter n qs l :
  Interleaving qs l →
  own_names qs →
  filter (λ e, Name e = n) l = filter (λ e, Name e = n) (List.concat qs).
Proof.
  induction 1 as [qs Hnil|qs i x q l Hi Hint IH]; intros Hown.
  - by rewrite concat_all_nil.
  - specialize (IH (own_names_take _ _ _ _ Hown Hi)).
    assert (Hlen : (i < List.length qs)%nat) by (by eapply lookup_lt_Some).
    rewrite (insert_take_drop _ _ _ Hlen) in IH.
    rewrite <- (take_drop_middle _ _ _ Hi).
    rewrite concat_app, filter_app, concat_cons, filter_app.
    rewrite concat_app, filter_app, concat_cons, filter_app in IH.
    destruct (decide (Name x = n)) as [Hn|Hn].
    + rewrite !filter_cons_True by done. rewrite IH.
      rewrite (filter_concat_nil _ (take i qs)); [done|].
      intros j q' y Hj Hy Hy'. apply lookup_take_Some in Hj as [Hj Hlt].
      assert (j = i); [|lia].
      apply (Hown j i q' (x :: q) y x); auto; [apply list_elem_of_here|congruence].
    + rewrite !filter_cons_False by done. done.
Qed.

(** X5. When no two handlers use the same name, the membership reached
    once every handler has submitted all its events does not depend on
    how the submissions were interleaved. *)
Theorem own_names_schedule_independent handlers s1 s2 :
  own_names handlers →
  rtc System_step (System_init handlers) s1 →
  rtc System_step (System_init handlers) s2 →
  Forall (λ q, q = []) (pending s1) →
  Forall (λ q, q = []) (pending s2) →
  clients (actor s1) = clients (actor s2).
Proof.
  intros Hown Hr1 Hr2 Hn1 Hn2.
  destruct (System_invariant _ _ Hr1) as [Hc1 Hi1].
  destruct (System_invariant _ _ Hr2) as [Hc2 Hi2].
  specialize (Hi1 [] (Interleaving_done _ Hn1)).
  specialize (Hi2 [] (Interleaving_done _ Hn2)).
  rewrite app_nil_r in Hi1, Hi2.
  apply map_eq. intros n. rewrite Hc1, Hc2.
  rewrite (clients_after_filter n (consumed s1) ∅ ∅ eq_refl).
  rewrite (clients_after_filter n (consumed s2) ∅ ∅ eq_refl).
  by rewrite (Interleaving_filter n _ _ Hi1 Hown),
             (Interleaving_filter n _ _ Hi2 Hown).
Qed.

Lemma own_names_schedule_independent_witness :
  clients (actor two_handlers_end) = clients (actor two_handlers_alice_first).
Proof.
  apply (own_names_schedule_independent two_handlers
           two_handlers_end two_handlers_alice_first).
  - intros i j q1 q2 m1 m2 Hi Hj H1 H2 Hn.
    destruct i as [|[|i]], j as [|[|j]]; simpl in Hi, Hj;
      try discriminate; try reflexivity;
      inversion Hi; inversion Hj; subst; exfalso;
      repeat (apply elem_of_cons in H1 as [->|H1]);
      try (by inversion H1);
      repeat (apply elem_of_cons in H2 as [->|H2]);
      try (by inversion H2); discriminate Hn.
  - unfold two_handlers_end.
    eapply rtc_l; [eapply (System_take_step listening 0); reflexivity|].
    eapply rtc_l; [eapply (System_take_step listening 1); reflexivity|].
    eapply rtc_l; [eapply (System_take_step listening 1); reflexivity|].
    eapply rtc_l; [eapply (System_take_step listening 0); reflexivity|].
    apply rtc_refl.
  - unfold two_handlers_alice_first.
    eapply rtc_l; [eapply (System_take_step listening 1); reflexivity|].
    eapply rtc_l; [eapply (System_take_step listening 1); reflexivity|].
    eapply rtc_l; [eapply (System_take_step listening 0); reflexivity|].
    eapply rtc_l; [eapply (System_take_step listening 0); reflexivity|].
    apply rtc_refl.
  - vm_compute. repeat constructor.
  - vm_compute. repeat constructor.
Defined.

(** * Further properties of the connection handler *)

(** The two ways a session can go. *)
Lemma Serve_submits_cases ok reply input :
  (Serve_submits ok reply input = []
   ∧ (ok = false ∨ ReadString newline input = None))
  ∨ (∃ first lines tail,
       ok = true
       ∧ input = first +:+ join lines tail
       ∧ is_line first ∧ Forall is_line lines ∧ ReadString newline tail = None
       ∧ Serve_submits ok reply input
         = Login (TrimSpace first) (Some reply)
             :: map (Publish (TrimSpace first)) lines
                ++ [Logout (TrimSpace first)]).
Proof.
  destruct ok; [|left; split; [done|by left]].
  destruct (ReadString newline input) as [[first rest]|] eqn:E.
  - right. destruct (ReadString_shape _ _ _ _ E) as (-> & Hfirst & _).
    destruct (input_is_lines rest) as (lines & tail & -> & Hl & Ht).
    exists first, lines, tail. repeat split; auto.
    unfold Serve_submits. rewrite E. f_equal.
    apply reader_lines; auto.
    pose proof (join_length lines tail Hl). lia.
  - left. unfold Serve_submits. rewrite E. split; [done|by right].
Qed.

(** X6. Whatever bytes a connection yields, [Serve] submits either nothing
    (the prompt could not be written, or the stream ended before the
    first newline) or one Login, then one Publish per complete line that
    follows, then one Logout, all under the same name; the lines
    published are, in order, the bytes that follow the first line, up to
    the last newline. *)
Theorem Serve_session_shape ok reply input :
  (Serve_submits ok reply input = []
   ∧ (ok = false ∨ ReadString newline input = None))
  ∨ (∃ first lines tail,
       ok = true
       ∧ input = first +:+ join lines tail
       ∧ is_line first ∧ Forall is_line lines ∧ ReadString newline tail = None
       ∧ Serve_submits ok reply input
         = Login (TrimSpace first) (Some reply)
             :: map (Publish (TrimSpace first)) lines
                ++ [Logout (TrimSpace first)]).
Proof. apply Serve_submits_cases. Qed.

(** The last event of a session is the Logout. *)
Lemma clients_after_session cl name reply lines :
  clients_after cl
    (Login name (Some reply) :: map (Publish name) lines ++ [Logout name])
    !! name = None.
Proof.
  rewrite app_comm_cons, clients_after_snoc, next_clients_lookup.
  simpl. by rewrite decide_True.
Qed.

(** X7. Once the board has received all that a connection submitted, and
    no other event under the connection's name, the name is not a member,
    whatever the board held before and whatever other names did in
    between. *)
Theorem ended_session_leaves_no_member ok reply input e rest l cl :
  Serve_submits ok reply input = e :: rest →
  filter (λ x, Name x = Name e) l = e :: rest →
  clients_after cl l !! Name e = None.
Proof.
  intros Hs Hl.
  rewrite (clients_after_filter (Name e) l cl cl eq_refl), Hl, <- Hs.
  destruct (Serve_submits_cases ok reply input)
    as [[Hnil _]|(first & lines & tail & _ & _ & _ & _ & _ & Hses)].
  - congruence.
  - rewrite Hses in Hs. inversion Hs; subst. simpl.
    rewrite Hses. apply clients_after_session.
Qed.

Lemma ended_session_leaves_no_member_witness :
  clients_after (clients room_of_alice)
    [Login "bob" (Some bob_ch); Publish "alice" "hi"; Login "carol" (Some carol_ch);
     Publish "bob" ("yo" +:+ LF); Logout "bob"]
    !! "bob" = None.
Proof.
  apply (ended_session_leaves_no_member true bob_ch
           ("bob" +:+ LF +:+ "yo" +:+ LF)
           (Login "bob" (Some bob_ch))
           [Publish "bob" ("yo" +:+ LF); Logout "bob"]
           [Login "bob" (Some bob_ch); Publish "alice" "hi";
            Login "carol" (Some carol_ch); Publish "bob" ("yo" +:+ LF); Logout "bob"]
           (clients room_of_alice)).
  - vm_compute. reflexivity.
  - vm_compute. reflexivity.
Defined.

(** X8. The relay loop writes the notifications it receives, one string
    each and in order, up to the first write that fails; nothing that
    arrives after the failed write is written. *)
Theorem relay_stops_at_failed_write before r after :
  Forall (λ x, x.2 = true) before →
  relay (before ++ (r, false) :: after) = map (λ x, relay_line x.1) before
  ∧ relay before = map (λ x, relay_line x.1) before.
Proof.
  induction 1 as [|[r0 ok] before Hok _ [IH1 IH2]]; simpl; [done|].
  simpl in Hok. subst ok. by rewrite IH1, IH2.
Qed.

Lemma relay_stops_at_failed_write_witness :
  relay ([(Publish "alice" "a", true)] ++ (Publish "alice" "b", false)
           :: [(Publish "alice" "c", true)])
    = map (λ x, relay_line x.1) [(Publish "alice" "a", true)]
  ∧ relay [(Publish "alice" "a", true)]
    = map (λ x, relay_line x.1) [(Publish "alice" "a", true)].
Proof.
  apply (relay_stops_at_failed_write [(Publish "alice" "a", true)]
           (Publish "alice" "b") [(Publish "alice" "c", true)]).
  repeat constructor.
Defined.

(** ** Names and lines *)

Lemma ReadString_None delim s :
  ReadString delim s = None ↔ delim ∉ list_ascii_of_string s.
Proof.
  induction s as [|c s IH]; simpl.
  - split; [intros _ H; inversion H|done].
  - destruct (Ascii.eqb_spec c delim) as [->|Hne].
    + split; [done|]. intros H. exfalso. apply H, list_elem_of_here.
    + destruct (ReadString delim s) as [[l r]|].
      * split; [done|]. intros H. exfalso.
        destruct IH as [_ IH]. enough (Some (l, r) = None) by done.
        apply IH. intros Hin. apply H. by apply list_elem_of_further.
      * split; [|done]. intros _ Hin.
        apply elem_of_cons in Hin as [Heq|Hin]; [congruence|].
        by apply IH in Hin.
Qed.

(** The only newline of a line is its last byte. *)
Lemma is_line_bytes l :
  is_line l →
  ∃ body, list_ascii_of_string l = body ++ [newline] ∧ newline ∉ body.
Proof.
  unfold is_line. induction l as [|c l IH]; simpl; [done|].
  destruct (Ascii.eqb_spec c newline) as [->|Hne].
  - intros H. inversion H; subst. exists []. split; [done|]. intros Hin. inversion Hin.
  - destruct (ReadString newline l) as [[l' r]|] eqn:E; [|done].
    intros H. inversion H; subst. destruct (IH eq_refl) as (body & -> & Hb).
    exists (c :: body). split; [done|].
    intros Hin. apply elem_of_cons in Hin as [Heq|Hin]; [congruence|done].
Qed.

Lemma last_is_only {A} (d : A) (x y body : list A) :
  x ++ d :: y = body ++ [d] → d ∉ body → y = [].
Proof.
  intros Heq Hno. destruct y as [|z y _] using rev_ind; [done|]. exfalso.
  change (x ++ d :: y ++ [z]) with (x ++ (d :: y) ++ [z]) in Heq.
  rewrite app_assoc in Heq. apply app_inj_tail in Heq as [<- _].
  apply Hno. rewrite elem_of_app. right. apply list_elem_of_here.
Qed.

(** The name of a connection holds no newline. *)
Lemma TrimSpace_no_newline first :
  is_line first → ReadString newline (TrimSpace first) = None.
Proof.
  intros Hline. apply ReadString_None. unfold TrimSpace.
  rewrite list_ascii_of_string_of_list_ascii. intros Hin.
  destruct (is_line_bytes _ Hline) as (body & Hbytes & Hbody).
  destruct (trim_front_split (list_ascii_of_string first)) as (pre & Hpre & _).
  destruct (trim_back_split (trim_front (list_ascii_of_string first)))
    as (post & Hpost & _).
  apply list_elem_of_split in Hin as (a & b & Hab).
  assert (Hend : b ++ post = []).
  { apply (last_is_only newline (pre ++ a) (b ++ post) body); [|done].
    rewrite <- Hbytes, Hpre, Hpost, Hab.
    by rewrite <- !app_assoc. }
  apply app_eq_nil in Hend as [-> _].
  pose proof (trim_back_rev_no_space
                (rev (trim_front (list_ascii_of_string first)))) as Hno.
  unfold trim_back in Hab.
  apply (f_equal (@rev ascii)) in Hab.
  rewrite rev_involutive, rev_app_distr in Hab. simpl in Hab.
  rewrite Hab in Hno. simpl in Hno. discriminate Hno.
Qed.

Lemma ReadString_app_free delim a s :
  ReadString delim a = None →
  ReadString delim (a +:+ s)
    = match ReadString delim s with
      | Some (l, r) => Some (a +:+ l, r)
      | None => None
      end.
Proof.
  induction a as [|c a IH].
  - intros _. change ("" +:+ s) with s.
    destruct (ReadString delim s) as [[l r]|]; reflexivity.
  - change (String c a +:+ s) with (String c (a +:+ s)). simpl.
    destruct (Ascii.eqb c delim); [done|].
    destruct (ReadString delim a) as [[l r]|]; [done|].
    intros _. rewrite IH by done.
    destruct (ReadString delim s) as [[l r]|]; reflexivity.
Qed.

(** X9. Every message a connection publishes reaches the other clients as
    exactly one line: the name of the connection holds no newline, so the
    string written for it, the name, a colon, a blank and the line, has
    one newline, at its end. *)
Theorem relayed_message_is_one_line ok reply input e :
  e ∈ Serve_submits ok reply input →
  Type_ e = TEXTLINE →
  ReadString newline (Name e) = None
  ∧ is_line (Msg e)
  ∧ is_line (relay_line e).
Proof.
  intros Hin Hty.
  destruct (Serve_submits_cases ok reply input)
    as [[Hnil _]|(first & lines & tail & _ & _ & Hfirst & Hlines & _ & Hses)].
  { rewrite Hnil in Hin. inversion Hin. }
  rewrite Hses in Hin.
  assert (Hpub : ∃ l, l ∈ lines ∧ e = Publish (TrimSpace first) l).
  { apply elem_of_cons in Hin as [->|Hin]; [discriminate Hty|].
    apply elem_of_app in Hin as [Hin|Hin].
    - apply list_elem_of_fmap in Hin as (l & -> & Hl). eauto.
    - apply list_elem_of_singleton in Hin as ->. discriminate Hty. }
  destruct Hpub as (l & Hl & ->). simpl.
  assert (Hline : is_line l) by (by eapply Forall_forall in Hlines).
  pose proof (TrimSpace_no_newline _ Hfirst) as Hname.
  split; [done|]. split; [done|].
  unfold is_line, relay_line. simpl.
  rewrite (ReadString_app_free _ _ _ Hname).
  rewrite (ReadString_app_free newline ": " l eq_refl).
  unfold is_line in Hline. by rewrite Hline.
Qed.

Lemma relayed_message_is_one_line_witness :
  ReadString newline (Name (Publish "alice" ("Hello, everyone!" +:+ LF))) = None
  ∧ is_line (Msg (Publish "alice" ("Hello, everyone!" +:+ LF)))
  ∧ is_line (relay_line (Publish "alice" ("Hello, everyone!" +:+ LF))).
Proof.
  apply (relayed_message_is_one_line true alice_ch
           (" alice " +:+ LF +:+ "Hello, everyone!" +:+ LF)
           (Publish "alice" ("Hello, everyone!" +:+ LF))).
  - vm_compute. apply list_elem_of_further, list_elem_of_here.
  - reflexivity.
Defined.

(** * Connections and their channels *)

Lemma HandleBoard_step_panicked env b m b' t :
  HandleBoard_step env b m (b', t, Panicked) →
  ∃ name c, clients b !! name = Some (Some c) ∧ env c = Closed.
Proof.
  intros (order & Hperm & Heq). unfold HandleBoard_event in Heq.
  destruct (Z.eqb (Type_ m) LOGIN); [discriminate Heq|].
  destruct (Z.eqb (Type_ m) LOGOUT); [discriminate Heq|].
  destruct (Z.eqb (Type_ m) TEXTLINE); [|discriminate Heq].
  destruct (forward env m order) as [t0 st0] eqn:E.
  inversion Heq; subst.
  destruct (forward_panicked env m order) as (name & c & Hin & _ & Hc).
  { by rewrite E. }
  exists name, c. split; [|done].
  rewrite Hperm in Hin. by apply elem_of_map_to_list in Hin.
Qed.

Lemma fresh_not_joined h : fresh h → joined h → False.
Proof.
  intros [_ [l1 H1]] [_ [l2 H2]]. rewrite H1 in H2. unfold session in H2.
  destruct l2; discriminate H2.
Qed.

Lemma joined_not_gone h : joined h → gone h → False.
Proof.
  intros [_ [l H]] Hg. unfold gone in Hg. rewrite Hg in H.
  destruct l; discriminate H.
Qed.

Lemma own_channel_insert (hs : list Handler) i h h' :
  (∀ j k hj hk, hs !! j = Some hj → hs !! k = Some hk →
     h_reply hj = h_reply hk → j = k) →
  hs !! i = Some h →
  h_reply h' = h_reply h →
  ∀ j k hj hk, <[i := h']> hs !! j = Some hj → <[i := h']> hs !! k = Some hk →
    h_reply hj = h_reply hk → j = k.
Proof.
  intros Hinj Hi Hr j k hj hk Hj Hk Heq.
  apply list_lookup_insert_Some in Hj, Hk.
  destruct Hj as [(<- & <- & _)|[Hij Hj]], Hk as [(<- & <- & _)|[Hik Hk]].
  - done.
  - apply (Hinj i k h hk); auto. congruence.
  - apply (Hinj j i hj h); auto. congruence.
  - by apply (Hinj j k hj hk).
Qed.

(** A step of the connections and the board keeps [Room_inv]. *)
Lemma Room_step_inv r r' : Room_inv r → Room_step r r' → Room_inv r'.
Proof.
  intros (Hinj & Hph & Hmem & Hst) Hstep.
  destruct Hstep as [r i h m rest env [[b' t] st] Hi Htodo Hrun Henv Hb
                    |r i h Hi Htodo];
    unfold Room_inv; cbn [conns room_board room_status fst snd].
  - assert (Hlen : (i < List.length (conns r))%nat) by (by eapply lookup_lt_Some).
    assert (Hinj' : ∀ j k hj hk,
              <[i := h_submitted h rest]> (conns r) !! j = Some hj →
              <[i := h_submitted h rest]> (conns r) !! k = Some hk →
              h_reply hj = h_reply hk → j = k).
    { by apply (own_channel_insert _ i h). }
    destruct (Hph i h Hi) as [Hf|[Hj|Hg]].
    + (* the Login of the connection *)
      pose proof Hf as [Hcl [lines Hses]].
      rewrite Htodo in Hses. unfold session in Hses.
      injection Hses as -> ->.
      apply HandleBoard_step_login in Hb as (-> & _ & ->); [|done].
      split; [done|]. split; [|split; [|done]].
      * intros j hj Hj.
        apply list_lookup_insert_Some in Hj as [(<- & <- & _)|[Hne Hj]];
          [|by eapply Hph].
        right; left. split; [done|]. by exists lines.
      * intros n ch Hl. simpl in Hl. rewrite lookup_insert in Hl.
        case_decide as Hn.
        -- injection Hl as <-. subst n.
           exists i, (h_submitted h (map (Publish (h_name h)) lines
                                     ++ [Logout (h_name h)])).
           split; [by apply list_lookup_insert_eq|].
           split; [done|]. split; [done|]. split; [done|]. by exists lines.
        -- destruct (Hmem n ch Hl) as (j & hj & Hj & -> & -> & Hjo).
           exists j, hj. split; [|done].
           rewrite list_lookup_insert_ne; [done|].
           intros <-. rewrite Hi in Hj. injection Hj as <-.
           by apply (fresh_not_joined h).
    + pose proof Hj as [Hcl [lines Hses]]. rewrite Htodo in Hses.
      destruct lines as [|l lines]; simpl in Hses; injection Hses as -> ->.
      * (* the Logout of the connection *)
        apply HandleBoard_step_logout in Hb as (-> & _ & ->); [|done].
        split; [done|]. split; [|split; [|done]].
        -- intros j hj Hj'.
           apply list_lookup_insert_Some in Hj' as [(<- & <- & _)|[Hne Hj']];
             [|by eapply Hph].
           right; right. done.
        -- intros n ch Hl. simpl in Hl.
           apply lookup_delete_Some in Hl as [Hn Hl].
           destruct (Hmem n ch Hl) as (j & hj & Hj' & -> & -> & Hjo).
           exists j, hj. split; [|done].
           rewrite list_lookup_insert_ne; [done|].
           intros <-. rewrite Hi in Hj'. by injection Hj' as <-.
      * (* a Publish of the connection *)
        destruct (HandleBoard_step_publish env (room_board r)
                    (Publish (h_name h) l) b' t st eq_refl Hb)
          as (_ & _ & -> & _ & _).
        split; [done|]. split; [|split].
        -- intros j hj Hj'.
           apply list_lookup_insert_Some in Hj' as [(<- & <- & _)|[Hne Hj']];
             [|by eapply Hph].
           right; left. split; [done|]. by exists lines.
        -- intros n ch Hl.
           destruct (Hmem n ch Hl) as (j & hj & Hj' & -> & -> & Hjo).
           destruct (decide (j = i)) as [->|Hne].
           ++ rewrite Hi in Hj'. injection Hj' as <-.
              exists i, (h_submitted h (map (Publish (h_name h)) lines
                                        ++ [Logout (h_name h)])).
              split; [by apply list_lookup_insert_eq|].
              split; [done|]. split; [done|]. split; [done|]. by exists lines.
           ++ exists j, hj. split; [|done]. by rewrite list_lookup_insert_ne.
        -- intros ->.
           destruct (HandleBoard_step_panicked _ _ _ _ _ Hb) as (n & c & Hl & Hc).
           destruct (Henv c Hc) as (k & hk & Hk & Hrk & Hck).
           destruct (Hmem n (Some c) Hl) as (j & hj & Hj' & Hrj & _ & [Hcj _]).
           injection Hrj as Hrj.
           assert (j = k) as -> by (apply (Hinj j k hj hk); auto; congruence).
           rewrite Hk in Hj'. injection Hj' as <-. congruence.
    + unfold gone in Hg. congruence.
  - assert (Hlen : (i < List.length (conns r))%nat) by (by eapply lookup_lt_Some).
    split; [by apply (own_channel_insert _ i h)|]. split; [|split; [|done]].
    + intros j hj Hj.
      apply list_lookup_insert_Some in Hj as [(<- & <- & _)|[Hne Hj]];
        [|by eapply Hph].
      right; right. done.
    + intros n ch Hl.
      destruct (Hmem n ch Hl) as (j & hj & Hj & -> & -> & Hjo).
      exists j, hj. split; [|done].
      rewrite list_lookup_insert_ne; [done|].
      intros <-. rewrite Hi in Hj. injection Hj as <-.
      by apply (joined_not_gone h).
Qed.

Lemma Room_init_inv hs : fresh_conns hs → Room_inv (Room_init hs).
Proof.
  intros [Hnd Hfresh]. split; [|split; [|split; [|done]]]; simpl.
  - intros j k hj hk Hj Hk Heq.
    apply (NoDup_lookup _ j k (h_reply hj) Hnd).
    + by rewrite list_lookup_fmap, Hj.
    + by rewrite list_lookup_fmap, Hk, Heq.
  - intros j h Hj. left. by eapply Forall_lookup_1 in Hfresh.
  - intros n ch Hl. by rewrite lookup_empty in Hl.
Qed.

Lemma Room_reachable_inv hs r :
  fresh_conns hs → rtc Room_step (Room_init hs) r → Room_inv r.
Proof.
  intros Hfresh. revert r. apply rtc_ind_r.
  - by apply Room_init_inv.
  - intros r r' _ Hstep IH. by apply (Room_step_inv r r').
Qed.

Lemma Room_take_step i r h m rest :
  conns r !! i = Some h →
  h_todo h = m :: rest →
  room_status r = Running →
  Room_step r (Room_take i r).
Proof.
  intros Hi Htodo Hrun. unfold Room_take. rewrite Hrun, Hi, Htodo.
  apply (Room_submit r i h m rest listening
           (HandleBoard_turn listening (room_board r) m)); auto.
  - intros c Hc. discriminate Hc.
  - apply HandleBoard_step_turn.
Qed.

Lemma Room_shut_step i r h :
  conns r !! i = Some h →
  h_todo h = [] →
  Room_step r (Room_shut i r).
Proof.
  intros Hi Htodo. unfold Room_shut. rewrite Hi, Htodo.
  by apply (Room_close r i h).
Qed.

(** X10. Connections that each have a channel of their own, log in first,
    log out last and close their channel only after their Logout has been
    received never make the event loop panic, even when several of them
    use the same name: in every state they can reach with the board, a
    name is bound to a channel that is not [nil] and has not been closed,
    so that no turn taken there sends on a closed channel. *)
Theorem board_never_sends_on_closed_channel hs r :
  fresh_conns hs →
  rtc Room_step (Room_init hs) r →
  room_status r ≠ Panicked
  ∧ (∀ n ch, clients (room_board r) !! n = Some ch →
       ∃ c, ch = Some c ∧ ¬ closed_in (conns r) c)
  ∧ (∀ env m b' t st,
       (∀ c, env c = Closed → closed_in (conns r) c) →
       HandleBoard_step env (room_board r) m (b', t, st) →
       st ≠ Panicked).
Proof.
  intros Hfresh Hrun.
  destruct (Room_reachable_inv hs r Hfresh Hrun) as (Hinj & Hph & Hmem & Hst).
  assert (Hopen : ∀ n ch, clients (room_board r) !! n = Some ch →
                    ∃ c, ch = Some c ∧ ¬ closed_in (conns r) c).
  { intros n ch Hl.
    destruct (Hmem n ch Hl) as (j & hj & Hj & -> & _ & [Hcj _]).
    exists (h_reply hj). split; [done|].
    intros (k & hk & Hk & Hrk & Hck).
    assert (j = k) as -> by (apply (Hinj j k hj hk); auto).
    rewrite Hk in Hj. injection Hj as <-. congruence. }
  split; [done|]. split; [done|].
  intros env m b' t st Henv Hb ->.
  destruct (HandleBoard_step_panicked _ _ _ _ _ Hb) as (n & c & Hl & Hc).
  destruct (Hopen n (Some c) Hl) as (c' & [= <-] & Hno).
  by apply Hno, Henv.
Qed.

Example two_bobs_later_state :
  clients (room_board two_bobs_later) = ∅
  ∧ h_closed <$> conns two_bobs_later = [true; false]
  ∧ h_todo <$> conns two_bobs_later = [[]; [Logout "bob"]]
  ∧ room_status two_bobs_later = Running.
Proof. vm_compute. done. Qed.

Lemma board_never_sends_on_closed_channel_witness :
  room_status two_bobs_later ≠ Panicked
  ∧ (∀ n ch, clients (room_board two_bobs_later) !! n = Some ch →
       ∃ c, ch = Some c ∧ ¬ closed_in (conns two_bobs_later) c)
  ∧ (∀ env m b' t st,
       (∀ c, env c = Closed → closed_in (conns two_bobs_later) c) →
       HandleBoard_step env (room_board two_bobs_later) m (b', t, st) →
       st ≠ Panicked).
Proof.
  apply (board_never_sends_on_closed_channel two_bobs two_bobs_later).
  - split.
    + apply (bool_decide_unpack _). vm_compute. reflexivity.
    + repeat constructor; by eexists.
  - unfold two_bobs_later.
    eapply rtc_l; [eapply (Room_take_step 0); reflexivity|].
    eapply rtc_l; [eapply (Room_take_step 1); reflexivity|].
    eapply rtc_l; [eapply (Room_take_step 0); reflexivity|].
    eapply rtc_l; [eapply (Room_shut_step 0); reflexivity|].
    eapply rtc_l; [eapply (Room_take_step 1); reflexivity|].
    apply rtc_refl.
Defined.

(** * What is sent over a run *)

(** Whatever the event, what a turn sends is the event itself, a
    [TEXTLINE], to members of another name. *)
Lemma HandleBoard_step_sends_from env b m b' t st to c m' :
  HandleBoard_step env b m (b', t, st) →
  (to, c, m') ∈ sends t →
  Type_ m = TEXTLINE ∧ m' = m ∧ to ≠ Name m ∧ clients b !! to = Some (Some c).
Proof.
  intros Hstep Hin.
  destruct (Z.eqb_spec (Type_ m) TEXTLINE) as [Hty|Hty].
  - destruct (publish_step_sends _ _ _ _ _ _ Hty Hstep) as [Hsound _].
    destruct (Hsound _ _ _ Hin) as (? & ? & ?). done.
  - exfalso. destruct Hstep as (order & _ & Heq). unfold HandleBoard_event in Heq.
    destruct (Z.eqb (Type_ m) LOGIN);
      [inversion Heq; subst; simpl in Hin; inversion Hin|].
    destruct (Z.eqb (Type_ m) LOGOUT);
      [inversion Heq; subst; simpl in Hin; inversion Hin|].
    apply Z.eqb_neq in Hty. rewrite Hty in Heq.
    inversion Heq; subst; simpl in Hin; inversion Hin.
Qed.

Lemma HandleBoard_sends_from b ms b' t st to c m' :
  HandleBoard b ms b' t st →
  (to, c, m') ∈ sends t →
  (m' ∈ ms ∧ Type_ m' = TEXTLINE ∧ to ≠ Name m')
  ∧ (clients b !! to = Some (Some c)
     ∨ ∃ e, e ∈ ms ∧ Type_ e = LOGIN ∧ Name e = to ∧ ReplyCh e = Some c).
Proof.
  induction 1 as [b|env b m ms b1 t1 b2 t2 st Hstep Hrun IH
                   |env b m ms b1 t1 st Hstep Hst]; intros Hin.
  - inversion Hin.
  - rewrite sends_app, elem_of_app in Hin. destruct Hin as [Hin|Hin].
    + destruct (HandleBoard_step_sends_from _ _ _ _ _ _ _ _ _ Hstep Hin)
        as (? & -> & ? & ?).
      split; [|by left]. split; [apply list_elem_of_here|done].
    + destruct (IH Hin) as [(Hm & ? & ?) Hfrom].
      split; [split; [by apply list_elem_of_further|done]|].
      destruct Hfrom as [Hl|(e & He & ? & ? & ?)].
      * rewrite (HandleBoard_step_clients _ _ _ _ _ _ Hstep) in Hl.
        simpl in Hl. rewrite next_clients_lookup in Hl.
        destruct (decide (Name m = to)) as [Hn|Hn]; [|by left].
        destruct (Z.eqb_spec (Type_ m) LOGIN) as [Hty|Hty].
        -- right. exists m. split; [apply list_elem_of_here|].
           split; [done|]. split; [done|]. congruence.
        -- destruct (Z.eqb (Type_ m) LOGOUT); [done|by left].
      * right. exists e. split; [by apply list_elem_of_further|done].
  - destruct (HandleBoard_step_sends_from _ _ _ _ _ _ _ _ _ Hstep Hin)
      as (? & -> & ? & ?).
    split; [|by left]. split; [apply list_elem_of_here|done].
Qed.

(** X11. Over any run of the event loop from a new board, whatever is sent
    is a [TEXTLINE] event of the run, sent to another name than its own,
    on a channel that a Login of the run supplied for that name: nothing
    is made up, and nobody is served who did not log in. *)
Theorem only_published_to_logged_in ms b t st to c m' :
  HandleBoard (NewBoard "1") ms b t st →
  (to, c, m') ∈ sends t →
  m' ∈ ms ∧ Type_ m' = TEXTLINE ∧ to ≠ Name m'
  ∧ ∃ e, e ∈ ms ∧ Type_ e = LOGIN ∧ Name e = to ∧ ReplyCh e = Some c.
Proof.
  intros Hrun Hin.
  destruct (HandleBoard_sends_from _ _ _ _ _ _ _ _ Hrun Hin)
    as [(? & ? & ?) [Hl|He]].
  - simpl in Hl. by rewrite lookup_empty in Hl.
  - done.
Qed.

Lemma only_published_to_logged_in_witness :
  Publish "alice" "hi" ∈ [Login "bob" (Some bob_ch); Publish "alice" "hi"]
  ∧ Type_ (Publish "alice" "hi") = TEXTLINE ∧ "bob" ≠ Name (Publish "alice" "hi")
  ∧ ∃ e, e ∈ [Login "bob" (Some bob_ch); Publish "alice" "hi"]
      ∧ Type_ e = LOGIN ∧ Name e = "bob" ∧ ReplyCh e = Some bob_ch.
Proof.
  eapply (only_published_to_logged_in
            [Login "bob" (Some bob_ch); Publish "alice" "hi"]
            _ _ Running "bob" bob_ch (Publish "alice" "hi")).
  - eapply (HandleBoard_next listening); [by_turn|].
    eapply (HandleBoard_next listening); [by_turn|].
    apply HandleBoard_idle.
  - vm_compute. apply list_elem_of_here.
Defined.
